(** * Smart Legal Assistant: a shallow embedding of [src/smart_legal_assistant.py]

    The development follows the source file top to bottom: text primitives of
    the Python runtime that the program relies on ([str.split], [str.strip],
    [re.sub], [re.split], slicing, [dict.fromkeys]), then the clause
    segmenter, the chunked summarizer, the risk flagger, the upload text
    extractor and the [/analyze] endpoint.  External capabilities (the two
    HuggingFace pipelines, pdfminer, the Unicode case tables) are the fields
    of a record the program is parameterised by; the state that the source
    keeps in module globals and on disk is threaded explicitly, together
    with a log of the capability calls made. *)

From Stdlib Require Import Floats.
From stdpp Require Import gmap list strings.

Open Scope N_scope.
Open Scope nat_scope.

(** ** Strings

    A Python [str] is a sequence of Unicode code points; [len], slicing and
    [in] all count code points.  A code point is an [N]. *)

Abbreviation str := (list N).

(** ASCII literals, for examples. *)
Definition u (s : string) : str :=
  map Ascii.N_of_ascii (String.list_ascii_of_string s).

Definition NL : N := 10%N.
Definition SP : N := 32%N.

Definition is_nl (c : N) : bool := (c =? NL)%N.

(** [str.isspace] for one code point; the same table ([Py_UNICODE_ISSPACE])
    backs [str.split()], [str.strip()] and the class [\s] of [re] on [str]
    patterns. *)
Definition is_space (c : N) : bool :=
  ((9 <=? c) && (c <=? 13) || (28 <=? c) && (c <=? 32)
   || (c =? 133) || (c =? 160) || (c =? 5760)
   || (8192 <=? c) && (c <=? 8202)
   || (c =? 8232) || (c =? 8233) || (c =? 8239) || (c =? 8287)
   || (c =? 12288))%N.

(** [s.lstrip()], [s.rstrip()], [s.strip()] *)
Fixpoint lstrip (s : str) : str :=
  match s with
  | [] => []
  | c :: rest => if is_space c then lstrip rest else s
  end.

Definition rstrip (s : str) : str := reverse (lstrip (reverse s)).

Definition strip (s : str) : str := rstrip (lstrip s).

(** [s.split()]: maximal runs of non-whitespace, in order; [w] is the word
    being read. *)
Fixpoint split_from (w : str) (s : str) : list str :=
  match s with
  | [] => match w with [] => [] | _ => [w] end
  | c :: rest =>
      if is_space c
      then match w with
           | [] => split_from [] rest
           | _ => w :: split_from [] rest
           end
      else split_from (w ++ [c]) rest
  end.

Definition split (s : str) : list str := split_from [] s.

(** [sep.join(parts)] *)
Fixpoint join (sep : str) (parts : list str) : str :=
  match parts with
  | [] => []
  | [p] => p
  | p :: ps => p ++ sep ++ join sep ps
  end.

(** [needle in hay] *)
Fixpoint is_prefix (p s : str) : bool :=
  match p, s with
  | [], _ => true
  | _ :: _, [] => false
  | a :: p', b :: s' => (a =? b)%N && is_prefix p' s'
  end.

Fixpoint contains (needle hay : str) : bool :=
  is_prefix needle hay ||
  match hay with
  | [] => false
  | _ :: hay' => contains needle hay'
  end.

(** [s.endswith(suffix)] *)
Definition endswith (s suffix : str) : bool :=
  is_prefix (reverse suffix) (reverse s).

(** ** Regular expressions

    The two patterns of the source never match the empty string, so the
    leftmost non-overlapping scan of [re.sub] and [re.split] is: at each
    position try the pattern; on a match of length [S n] emit and skip the
    [n] following characters, otherwise move one character on.  A matcher
    gets the rest of the subject from the current position and answers the
    length of the match found there. *)

Definition matcher := str -> option nat.

Fixpoint re_sub_from (m : matcher) (repl : str) (skip : nat) (s : str) : str :=
  match s with
  | [] => []
  | c :: rest =>
      match skip with
      | S k => re_sub_from m repl k rest
      | O =>
          match m (c :: rest) with
          | Some (S n) => repl ++ re_sub_from m repl n rest
          | _ => c :: re_sub_from m repl 0 rest
          end
      end
  end.

Definition re_sub (m : matcher) (repl : str) (s : str) : str :=
  re_sub_from m repl 0 s.

Fixpoint re_split_from (m : matcher) (skip : nat) (piece : str) (s : str)
  : list str :=
  match s with
  | [] => [piece]
  | c :: rest =>
      match skip with
      | S k => re_split_from m k piece rest
      | O =>
          match m (c :: rest) with
          | Some (S n) => piece :: re_split_from m n [] rest
          | _ => re_split_from m 0 (piece ++ [c]) rest
          end
      end
  end.

Definition re_split (m : matcher) (s : str) : list str :=
  re_split_from m 0 [] s.

(** Length of the leading run of characters satisfying [p]. *)
Fixpoint run_length (p : N -> bool) (s : str) : nat :=
  match s with
  | [] => 0
  | c :: rest => if p c then S (run_length p rest) else 0
  end.

(** Position of the last character of [s] satisfying [p]. *)
Fixpoint last_index (p : N -> bool) (s : str) : option nat :=
  match s with
  | [] => None
  | c :: rest =>
      match last_index p rest with
      | Some j => Some (S j)
      | None => if p c then Some 0 else None
      end
  end.

(** [r"\n{2,}"]: greedy, so the whole run of newlines, if it has two or
    more. *)
Definition match_newlines (s : str) : option nat :=
  let n := run_length is_nl s in
  if 2 <=? n then Some n else None.

(** [r"\n\s*\n"]: a newline, then [\s*] takes the whole whitespace run and
    gives back characters until a newline follows it, so the match ends at
    the last newline of that run; without one there is no match here. *)
Definition match_blank_line (s : str) : option nat :=
  match s with
  | c :: rest =>
      if is_nl c
      then match last_index is_nl (take (run_length is_space rest) rest) with
           | Some j => Some (S (S j))
           | None => None
           end
      else None
  | [] => None
  end.

(** ** Clause extraction *)

(** [re.sub(r"\n{2,}", "\n\n", text)] *)
Definition normalize_breaks (text : str) : str :=
  re_sub match_newlines [NL; NL] text.

(** [[p.strip() for p in re.split(r"\n\s*\n", text) if p.strip()]] *)
Definition paragraphs (text : str) : list str :=
  filter (λ p, p ≠ []) (map strip (re_split match_blank_line text)).

(** The [for p in paras] loop; [clauses] is the list built so far. *)
Fixpoint clause_loop (max_clauses : Z) (clauses : list str) (paras : list str)
  : list str :=
  match paras with
  | [] => clauses
  | p :: ps =>
      let clauses' :=
        if 40 <? length p then clauses ++ [p] else clauses in
      if (max_clauses <=? Z.of_nat (length clauses'))%Z
      then clauses'
      else clause_loop max_clauses clauses' ps
  end.

Definition extract_clauses (text : str) (max_clauses : Z) : list str :=
  clause_loop max_clauses [] (paragraphs (normalize_breaks text)).

Definition default_max_clauses : Z := 20.


(** ** Chunking *)

(** [range(start, stop, step)] for a positive [step]: CPython computes the
    number of items as [(stop - start + step - 1) // step]. *)
Definition py_range (start stop step : nat) : list nat :=
  map (λ k, start + k * step) (seq 0 ((stop - start + step - 1) / step)).

(** [l[i:j]]; indices past the end are clamped, as in Python. *)
Definition slice {A} (l : list A) (i j : nat) : list A :=
  take (j - i) (drop i l).

Definition chunk_text (text : str) (max_words : nat) : list str :=
  let words := split text in
  map (λ i, join [SP] (slice words i (i + max_words)))
      (py_range 0 (length words) max_words).

Definition default_max_words : nat := 700.

(** ** [dict.fromkeys]

    A [dict] keeps its keys in insertion order; assigning to a key that is
    already present keeps the key where it is. *)

Definition dict (V : Type) := list (str * V).

Fixpoint dict_setitem {V} (k : str) (v : V) (d : dict V) : dict V :=
  match d with
  | [] => [(k, v)]
  | (k', v') :: d' =>
      if decide (k = k') then (k', v) :: d' else (k', v') :: dict_setitem k v d'
  end.

(** Every key gets the value [None], here [()]. *)
Definition dict_fromkeys (keys : list str) : dict unit :=
  foldl (λ d k, dict_setitem k () d) [] keys.

(** [list(d)] *)
Definition dict_keys {V} (d : dict V) : list str := d.*1.

(** ** Bytes and codecs *)

Abbreviation bytes := (list Byte.byte).

(** [bytes.decode("latin-1")]: byte [b] is code point [b]. *)
Definition decode_latin1 (bs : bytes) : str := map Byte.to_N bs.

Definition is_cont (b : N) : bool := ((128 <=? b) && (b <=? 191))%N.

(** [bytes.decode("utf-8")] in strict mode on the byte values: shortest form
    only, no surrogates, nothing above U+10FFFF; [None] is
    [UnicodeDecodeError]. *)
Fixpoint utf8_code_points (bs : list N) : option str :=
  match bs with
  | [] => Some []
  | b0 :: r0 =>
      if (b0 <? 128)%N then cons b0 <$> utf8_code_points r0
      else if ((194 <=? b0) && (b0 <=? 223))%N then
        match r0 with
        | b1 :: r1 =>
            if is_cont b1
            then cons ((b0 - 192) * 64 + (b1 - 128))%N <$> utf8_code_points r1
            else None
        | _ => None
        end
      else if ((224 <=? b0) && (b0 <=? 239))%N then
        match r0 with
        | b1 :: b2 :: r2 =>
            let cp := ((b0 - 224) * 4096 + (b1 - 128) * 64 + (b2 - 128))%N in
            if is_cont b1 && is_cont b2 && (2048 <=? cp)%N
               && negb ((55296 <=? cp) && (cp <=? 57343))%N
            then cons cp <$> utf8_code_points r2
            else None
        | _ => None
        end
      else if ((240 <=? b0) && (b0 <=? 244))%N then
        match r0 with
        | b1 :: b2 :: b3 :: r3 =>
            let cp := ((b0 - 240) * 262144 + (b1 - 128) * 4096
                       + (b2 - 128) * 64 + (b3 - 128))%N in
            if is_cont b1 && is_cont b2 && is_cont b3
               && (65536 <=? cp)%N && (cp <=? 1114111)%N
            then cons cp <$> utf8_code_points r3
            else None
        | _ => None
        end
      else None
  end.

Definition decode_utf8 (bs : bytes) : option str :=
  utf8_code_points (map Byte.to_N bs).

(** ** Exceptions, results, capabilities *)

Inductive exn : Type :=
  | IndexError            (* [res[0]] on an empty list *)
  | UnicodeDecodeError    (* [contents.decode("utf-8")] *)
  | FileNotFoundError     (* a path that is not on disk *)
  | Failure (code : N).   (* any [Exception] raised inside a capability *)

Inductive result (A : Type) : Type :=
  | Returns (a : A)
  | Raises (e : exn).
Arguments Returns {A} a.
Arguments Raises {A} e.

(** One candidate of the summarization pipeline's answer. *)
Record summary_item := { summary_text : str }.

(** One entry of the text-classification pipeline's answer. *)
Record classification := { label : str; score : float }.

Inductive task := Summarization | TextClassification.

(** An uploaded file as the handler sees it. *)
Record UploadFile := { filename : option str; contents : bytes }.

(** What the program takes from outside.  [World] is whatever the outside
    keeps between calls (model weights, caches, sampling state): each
    capability reads it and may change it, and may raise. *)
Record capabilities (World : Type) := {
  (* [str.upper], [str.lower] with the Unicode tables of the runtime *)
  py_upper : str -> str;
  py_lower : str -> str;
  (* [transformers.pipeline(task, model=...)] *)
  pipeline : task -> World -> result unit * World;
  (* calling the summarization pipeline *)
  run_summarizer :
    str -> Z -> Z -> bool -> World -> result (list summary_item) * World;
  (* calling the text-classification pipeline on one text pair *)
  run_nli : str -> str -> World -> result (list classification) * World;
  (* [pdfminer.high_level.extract_text] on the content of a file *)
  run_pdf_extract : bytes -> World -> result str * World;
}.
Arguments py_upper {World} _ _.
Arguments py_lower {World} _ _.
Arguments pipeline {World} _ _ _.
Arguments run_summarizer {World} _ _ _ _ _ _.
Arguments run_nli {World} _ _ _ _.
Arguments run_pdf_extract {World} _ _ _.

(** A capability invocation, as recorded in the call log. *)
Inductive call : Type :=
  | CallSummarizer (text : str) (max_length min_length : Z) (truncation : bool)
  | CallNli (text text_pair : str)
  | CallPdfExtract (path : N).

(** Module globals, the temporary directory and the call log. *)
Record state (World : Type) := {
  world : World;
  _summarizer : bool;        (* [_summarizer is not None] *)
  _nli_classifier : bool;    (* [_nli_classifier is not None] *)
  files : gmap N bytes;      (* path -> content *)
  calls : list call;         (* oldest first *)
}.
Arguments world {World} _.
Arguments _summarizer {World} _.
Arguments _nli_classifier {World} _.
Arguments files {World} _.
Arguments calls {World} _.

(** ** The effect monad: state passing with exceptions *)

Definition M (World : Type) (A : Type) : Type :=
  state World -> result A * state World.

#[global] Instance M_ret {World} : MRet (M World) := λ A a st, (Returns a, st).

#[global] Instance M_bind {World} : MBind (M World) := λ A B k m st,
  match m st with
  | (Returns a, st') => k a st'
  | (Raises e, st') => (Raises e, st')
  end.

Section Program.
Context {World : Type} (env : capabilities World).
#[local] Abbreviation M := (M World).

Definition raise {A} (e : exn) : M A := λ st, (Raises e, st).

(** [try: body / except Exception: handler] *)
Definition try_except {A} (body : M A) (handler : exn -> M A) : M A := λ st,
  match body st with
  | (Returns a, st') => (Returns a, st')
  | (Raises e, st') => handler e st'
  end.

(** [try: body / finally: cleanup]: the cleanup runs on both exits and an
    exception of its own replaces the outcome of the body. *)
Definition try_finally {A} (body : M A) (cleanup : M unit) : M A := λ st,
  let '(r, st1) := body st in
  match cleanup st1 with
  | (Returns _, st2) => (r, st2)
  | (Raises e, st2) => (Raises e, st2)
  end.

(** [for x in xs: acc = body(x, acc)] *)
Fixpoint for_each {A B} (xs : list A) (body : A -> B -> M B) (acc : B) : M B :=
  match xs with
  | [] => mret acc
  | x :: xs' => acc' ← body x acc; for_each xs' body acc'
  end.

(** [xs[0]] *)
Definition item0 {A} (xs : list A) : M A :=
  match xs with
  | x :: _ => mret x
  | [] => raise IndexError
  end.

Definition set_world (w : World) (st : state World) : state World :=
  {| world := w; _summarizer := _summarizer st;
     _nli_classifier := _nli_classifier st;
     files := files st; calls := calls st |}.

Definition set_files (fs : gmap N bytes) (st : state World) : state World :=
  {| world := world st; _summarizer := _summarizer st;
     _nli_classifier := _nli_classifier st;
     files := fs; calls := calls st |}.

Definition log_call (c : call) (st : state World) : state World :=
  {| world := world st; _summarizer := _summarizer st;
     _nli_classifier := _nli_classifier st;
     files := files st; calls := calls st ++ [c] |}.

(** Run a capability: record the call, hand it the world, keep the world it
    leaves, pass on what it returns or raises. *)
Definition invoke {A} (c : call) (f : World -> result A * World) : M A := λ st,
  let '(r, w) := f (world st) in (r, set_world w (log_call c st)).

(** *** Model handles *)

Definition get_summarizer : M unit := λ st,
  if _summarizer st then (Returns (), st)
  else
    match pipeline env Summarization (world st) with
    | (Returns _, w) =>
        (Returns (),
         {| world := w; _summarizer := true;
            _nli_classifier := _nli_classifier st;
            files := files st; calls := calls st |})
    | (Raises e, w) => (Raises e, set_world w st)
    end.

Definition get_nli : M unit := λ st,
  if _nli_classifier st then (Returns (), st)
  else
    match pipeline env TextClassification (world st) with
    | (Returns _, w) =>
        (Returns (),
         {| world := w; _summarizer := _summarizer st;
            _nli_classifier := true;
            files := files st; calls := calls st |})
    | (Raises e, w) => (Raises e, set_world w st)
    end.

(** [summarizer(text, max_length=.., min_length=.., truncation=..)] *)
Definition summarizer (text : str) (max_length min_length : Z)
    (truncation : bool) : M (list summary_item) :=
  invoke (CallSummarizer text max_length min_length truncation)
         (run_summarizer env text max_length min_length truncation).

(** [nli([{"text": text, "text_pair": text_pair}])] *)
Definition nli (text text_pair : str) : M (list classification) :=
  invoke (CallNli text text_pair) (run_nli env text text_pair).

(** *** Temporary files *)

(** [tempfile.NamedTemporaryFile(delete=False, suffix=".pdf")]: a new empty
    file under a name not in use. *)
Definition NamedTemporaryFile : M N := λ st,
  let name := fresh (dom (files st)) in
  (Returns name, set_files (<[name := []]> (files st)) st).

(** [tmp.write(contents); tmp.close()] *)
Definition tmp_write_close (name : N) (data : bytes) : M unit := λ st,
  match files st !! name with
  | Some old => (Returns (), set_files (<[name := old ++ data]> (files st)) st)
  | None => (Raises FileNotFoundError, st)
  end.

(** [os.unlink(name)] *)
Definition os_unlink (name : N) : M unit := λ st,
  match files st !! name with
  | Some _ => (Returns (), set_files (delete name (files st)) st)
  | None => (Raises FileNotFoundError, st)
  end.

(** [pdf_extract_text(name)] *)
Definition pdf_extract_text (name : N) : M str := λ st,
  match files st !! name with
  | Some data => invoke (CallPdfExtract name) (run_pdf_extract env data) st
  | None => (Raises FileNotFoundError, log_call (CallPdfExtract name) st)
  end.

(** *** File handling *)

Definition PDF_SUFFIX : str := u ".pdf".

Definition extract_text_from_upload (upload : UploadFile) : M str :=
  let filename := py_lower env (default [] (filename upload)) in
  let contents := contents upload in
  if endswith filename PDF_SUFFIX then
    tmp ← NamedTemporaryFile;
    try_finally
      (tmp_write_close tmp contents;; pdf_extract_text tmp)
      (os_unlink tmp)
  else
    try_except
      (match decode_utf8 contents with
       | Some s => mret s
       | None => raise UnicodeDecodeError
       end)
      (λ _, mret (decode_latin1 contents)).

(** *** Summarization *)

(** [summarizer(text, ...)[0]["summary_text"]] *)
Definition summarize_once (text : str) (max_length min_length : Z) : M str :=
  res ← summarizer text max_length min_length true;
  top ← item0 res;
  mret (summary_text top).

Definition summarize_text (text : str) (max_length : Z) : M str :=
  get_summarizer;;
  if length (split text) <? 800 then
    summarize_once text max_length 30
  else
    let chunks := chunk_text text default_max_words in
    partials ← mapM (λ c, summarize_once c 120 30) chunks;
    let combined := join [SP] partials in
    summarize_once combined max_length 50.

Definition default_max_length : Z := 200.

(** *** Risk analysis *)

Definition ARROW : N := 8594%N.

Definition hypotheses : list str :=
  [ u "This clause allows termination without notice.";
    u "This clause removes or limits liability.";
    u "This clause allows automatic renewal.";
    u "This clause allows unilateral amendment." ].

(** The binary64 value of the literal [0.6]. *)
Definition THRESHOLD : float := 0x1.3333333333333p-1%float.

(** ["ENTAIL" in top["label"].upper() and top["score"] > 0.6] *)
Definition entails (top : classification) : bool :=
  contains (u "ENTAIL") (py_upper env (label top))
  && PrimFloat.ltb THRESHOLD (score top).

(** [f"{h} → {clause[:200]}..."] *)
Definition finding (h clause : str) : str :=
  h ++ [SP; ARROW; SP] ++ slice clause 0 200 ++ u "...".

(** The body of the inner loop, on the list [flagged] built so far. *)
Definition check_pair (clause h : str) (flagged : list str) : M (list str) :=
  try_except
    (res ← nli clause h;
     top ← item0 res;
     if entails top then mret (flagged ++ [finding h clause])
     else mret flagged)
    (λ _, mret flagged).

(** The two nested loops. *)
Definition scan (clauses : list str) : M (list str) :=
  for_each clauses
    (λ clause flagged,
       for_each hypotheses (λ h flagged, check_pair clause h flagged) flagged)
    [].

Definition flag_risks_with_nli (clauses : list str) : M (list str) :=
  get_nli;;
  flagged ← scan clauses;
  mret (dict_keys (dict_fromkeys flagged)).

(** *** The endpoint *)

Record AnalyzeResponse := {
  summary : str;
  clauses : list str;
  flagged_risks : list str;
}.

(** Truth value of an [Optional[str]]: [None] and the empty string are
    false. *)
Definition truthy (text : option str) : bool :=
  match text with
  | Some (_ :: _) => true
  | _ => false
  end.

Definition analyze_document (text : option str) (file : option UploadFile)
  : M AnalyzeResponse :=
  if negb (truthy text) && negb (bool_decide (is_Some file)) then
    mret {| summary := []; clauses := []; flagged_risks := [] |}
  else
    doc_text ← match file with
               | Some f => extract_text_from_upload f
               | None => mret (if truthy text then default [] text else [])
               end;
    let clauses := extract_clauses doc_text default_max_clauses in
    summary ← summarize_text doc_text default_max_length;
    risks ← flag_risks_with_nli clauses;
    mret {| summary := summary; clauses := clauses; flagged_risks := risks |}.

End Program.

(** [list(dict.fromkeys(flagged))] *)
Definition dedupe (flagged : list str) : list str :=
  dict_keys (dict_fromkeys flagged).

(** [l.index(x)], [None] when [x] is not in [l]. *)
Definition first_index (x : str) (l : list str) : option nat :=
  fst <$> list_find (λ y, y = x) l.

(** The keys of a [dict] after one more assignment. *)
Definition add_key (keys : list str) (k : str) : list str :=
  if decide (k ∈ keys) then keys else keys ++ [k].

(** [r] lists its entries in the order in which they first occur in [l]. *)
Definition first_occurrence_order (r l : list str) : Prop :=
  ∀ i j f g,
    r !! i = Some f -> r !! j = Some g -> i < j ->
    ∃ a b, first_index f l = Some a ∧ first_index g l = Some b ∧ a < b.

(** The clause-by-hypothesis scan order: clauses in order, and for each
    clause the hypotheses in their fixed order. *)
Definition scan_calls (clauses : list str) : list call :=
  clauses ≫= λ clause, map (CallNli clause) hypotheses.

Definition scan_findings (clauses : list str) : list str :=
  clauses ≫= λ clause, map (λ h, finding h clause) hypotheses.

(** The word slices that [chunk_text] joins. *)
Definition word_slices (words : list str) (max_words : nat) : list (list str) :=
  map (λ i, slice words i (i + max_words))
      (py_range 0 (length words) max_words).

(** A word as [str.split()] yields it: not empty, no whitespace inside. *)
Definition is_word (w : str) : Prop :=
  w ≠ [] ∧ Forall (λ c, is_space c = false) w.

(** A summarizer that answers every call with at least one candidate. *)
Definition summarizer_answers {World} (env : capabilities World) : Prop :=
  ∀ text max_length min_length truncation w,
    ∃ top rest w',
      run_summarizer env text max_length min_length truncation w
      = (Returns (top :: rest), w').

(** A paragraph break inside [s]: two newlines with only whitespace
    between them, which is what [r"\n\s*\n"] matches. *)
Definition has_blank_line (s : str) : Prop :=
  ∃ pre mid post,
    s = pre ++ NL :: mid ++ NL :: post ∧ Forall (λ c, is_space c = true) mid.

(** [sub in s], as a proposition. *)
Definition substring (sub s : str) : Prop := ∃ a b, s = a ++ sub ++ b.

(** The kinds of entries of the call log. *)
Definition is_summarizer_call (c : call) : bool :=
  match c with CallSummarizer _ _ _ _ => true | _ => false end.

Definition is_nli_call (c : call) : bool :=
  match c with CallNli _ _ => true | _ => false end.

Definition is_pdf_call (c : call) : bool :=
  match c with CallPdfExtract _ => true | _ => false end.

(** The first-pass call on one chunk. *)
Definition chunk_call (chunk : str) : call := CallSummarizer chunk 120 30 true.

(** [answer[0]["summary_text"]] on what the summarization pipeline
    answered. *)
Definition first_candidate (out : result (list summary_item)) : result str :=
  match out with
  | Returns (top :: _) => Returns (summary_text top)
  | Returns [] => Raises IndexError
  | Raises e => Raises e
  end.

(** How the first pass over the chunks can go: every call gives a
    candidate, or call number [k] is the first that does not. *)
Inductive first_pass_outcome : Type :=
  | AllAnswered (partials : list str)
  | FailedAt (k : nat) (e : exn).

(** Reference run of the first pass, to compare [summarize_text] with: the
    chunks are put to the summarizer itself, one after the other, each call
    in the world the call before it has left.  The partial summaries are
    the texts of the first candidates of its answers; the pass ends at the
    first call that raises, or that gives no candidate ([IndexError]). *)
Fixpoint first_pass {World} (env : capabilities World) (chunks : list str)
    (w : World) : first_pass_outcome * World :=
  match chunks with
  | [] => (AllAnswered [], w)
  | c :: cs =>
      match run_summarizer env c 120 30 true w with
      | (Returns (top :: _), w1) =>
          match first_pass env cs w1 with
          | (AllAnswered ps, w') => (AllAnswered (summary_text top :: ps), w')
          | (FailedAt k e, w') => (FailedAt (S k) e, w')
          end
      | (Returns [], w1) => (FailedAt 0 IndexError, w1)
      | (Raises e, w1) => (FailedAt 0 e, w1)
      end
  end.

(** An answer of the classifier that makes the flagger record a finding:
    a list whose first entry passes the test of the source. *)
Definition answer_entails {World} (env : capabilities World)
    (out : result (list classification)) : bool :=
  match out with
  | Returns (top :: _) => entails env top
  | _ => false
  end.

(** The pairs of the scan, in scan order. *)
Definition scan_pairs (clauses : list str) : list (str * str) :=
  clauses ≫= λ clause, map (λ h, (clause, h)) hypotheses.

(** Reference run of the scan, to compare [scan] with: the pairs are put to
    the classifier itself, one after the other, each call in the world the
    call before it has left, and a pair gives its finding when the answer
    is one that entails. *)
Fixpoint replay_pairs {World} (env : capabilities World)
    (pairs : list (str * str)) (w : World) : list str * World :=
  match pairs with
  | [] => ([], w)
  | (clause, h) :: rest =>
      let out := run_nli env clause h w in
      let later := replay_pairs env rest out.2 in
      ((if answer_entails env out.1 then [finding h clause] else [])
       ++ later.1, later.2)
  end.

(** ** Test doubles

    Stand-ins for the capabilities, in the manner of the mocks a test suite
    would inject.  The world is the number of model calls made so far. *)

Module Demo.

Definition ascii_upper (s : str) : str :=
  map (λ c, if (97 <=? c) && (c <=? 122) then c - 32 else c)%N s.

Definition ascii_lower (s : str) : str :=
  map (λ c, if (65 <=? c) && (c <=? 90) then c + 32 else c)%N s.

(** Summaries are the first eight characters of the input. *)
Definition mock_summarizer (text : str) (max_length min_length : Z)
    (truncation : bool) (w : nat) : result (list summary_item) * nat :=
  (Returns [ {| summary_text := take 8 text |} ], S w).

(** Entailment with score 0.9375 when the clause mentions "without notice" and
    the hypothesis mentions "termination"; an exception on clauses that
    mention "garbled"; otherwise neutral with score 0.5. *)
Definition mock_nli (clause h : str) (w : nat)
  : result (list classification) * nat :=
  if contains (u "garbled") clause then (Raises (Failure 7), S w)
  else if contains (u "without notice") clause
          && contains (u "termination") h
  then (Returns [ {| label := u "entailment"; score := 0.9375%float |} ], S w)
  else (Returns [ {| label := u "neutral"; score := 0.5%float |} ], S w).

(** Text of a "PDF" is its bytes read as latin-1; an empty file is not a
    PDF at all. *)
Definition mock_pdf (data : bytes) (w : nat) : result str * nat :=
  match data with
  | [] => (Raises (Failure 3), w)
  | _ => (Returns (decode_latin1 data), w)
  end.

Definition env : capabilities nat := {|
  py_upper := ascii_upper;
  py_lower := ascii_lower;
  pipeline := λ _ w, (Returns (), w);
  run_summarizer := mock_summarizer;
  run_nli := mock_nli;
  run_pdf_extract := mock_pdf;
|}.

(** The same, on a host where the classification model cannot be loaded. *)
Definition offline_env : capabilities nat := {|
  py_upper := ascii_upper;
  py_lower := ascii_lower;
  pipeline := λ t w,
    match t with
    | Summarization => (Returns (), w)
    | TextClassification => (Raises (Failure 1), w)
    end;
  run_summarizer := mock_summarizer;
  run_nli := mock_nli;
  run_pdf_extract := mock_pdf;
|}.

(** A fresh process: no handle loaded, nothing on disk, nothing called. *)
Definition start : state nat := {|
  world := 0; _summarizer := false; _nli_classifier := false;
  files := ∅; calls := [];
|}.

Definition clause_a : str :=
  u "Term: This Agreement may be terminated immediately without notice.".

Definition clause_b : str :=
  u "Payment: Invoices are due within 30 days of receipt.".

Definition two_paragraphs : str := clause_a ++ [NL; NL] ++ clause_b.

(** Forty-one letters, one paragraph. *)
Definition long_line : str := replicate 41 97%N.

(** Eight hundred one-letter words. *)
Definition long_text : str := mjoin (replicate 800 [119%N; SP]).

End Demo.


(** The piece [acc] that [re.split] is building, with [s] still to read:
    no newline of [acc] started a match. *)
Definition unmatched (acc s : str) : Prop :=
  ∀ pre rest, acc = pre ++ NL :: rest -> match_blank_line (NL :: rest ++ s) = None.

(** No more than two newlines in a row anywhere in [r]. *)
Definition short_runs (r : str) : Prop :=
  ∀ pre post, r = pre ++ post -> run_length is_nl post <= 2.

(** From [st] to [st']: the temporary files are the same, the global read
    by [flag] is the same, and the log has grown by calls of kind [kind]
    only. *)
Definition step {World} (flag : state World -> bool) (kind : call -> bool)
    (st st' : state World) : Prop :=
  files st' = files st
  ∧ flag st' = flag st
  ∧ ∃ new, calls st' = calls st ++ new ∧ Forall (λ c, kind c = true) new.

(** ** More inputs and test doubles *)

Module Samples.

(** A short heading, then a clause of 52 characters. *)
Definition heading_then_clause : str :=
  u "1. Term" ++ [NL; NL] ++ Demo.clause_b.

(** Three clauses separated by breaks of different shapes. *)
Definition three_clauses : str :=
  Demo.clause_a ++ [NL; NL; NL; NL] ++ Demo.clause_b
  ++ [NL; SP; NL] ++ Demo.clause_a.

(** A summarizer that returns no candidate at all. *)
Definition silent_env : capabilities nat := {|
  py_upper := Demo.ascii_upper;
  py_lower := Demo.ascii_lower;
  pipeline := λ _ w, (Returns (), w);
  run_summarizer := λ _ _ _ _ w, (Returns [], S w);
  run_nli := Demo.mock_nli;
  run_pdf_extract := Demo.mock_pdf;
|}.

(** A summarizer that fails on its second call. *)
Definition flaky_env : capabilities nat := {|
  py_upper := Demo.ascii_upper;
  py_lower := Demo.ascii_lower;
  pipeline := λ _ w, (Returns (), w);
  run_summarizer := λ text mx mn tr w,
    if (w =? 1)%nat then (Raises (Failure 9), S w)
    else Demo.mock_summarizer text mx mn tr w;
  run_nli := Demo.mock_nli;
  run_pdf_extract := Demo.mock_pdf;
|}.

(** A host where no summarization model can be constructed. *)
Definition no_summarizer_env : capabilities nat := {|
  py_upper := Demo.ascii_upper;
  py_lower := Demo.ascii_lower;
  pipeline := λ t w,
    match t with
    | Summarization => (Raises (Failure 2), w)
    | TextClassification => (Returns (), w)
    end;
  run_summarizer := Demo.mock_summarizer;
  run_nli := Demo.mock_nli;
  run_pdf_extract := Demo.mock_pdf;
|}.

(** Fifteen hundred one-letter words: three chunks. *)
Definition text_1500 : str := mjoin (replicate 1500 [119%N; SP]).

End Samples.

(** * Properties *)

(** ** Scanning with [re.sub] *)

Section Normalisation.

Lemma is_nl_true c : is_nl c = true -> c = NL.
Proof. unfold is_nl. by intros ?%N.eqb_eq. Qed.

Lemma re_sub_from_skip m repl k s :
  re_sub_from m repl k s = re_sub_from m repl 0 (drop k s).
Proof.
  revert k. induction s as [|c rest IH]; intros [|k]; simpl; done.
Qed.

(** The three shapes of a subject under [\n{2,}]. *)
Lemma normalize_other c rest :
  is_nl c = false -> normalize_breaks (c :: rest) = c :: normalize_breaks rest.
Proof.
  intros Hc. unfold normalize_breaks, re_sub. simpl.
  unfold match_newlines. simpl. by rewrite Hc.
Qed.

Lemma normalize_single c rest :
  is_nl c = true -> run_length is_nl rest = 0 ->
  normalize_breaks (c :: rest) = NL :: normalize_breaks rest.
Proof.
  intros Hc Hrun. unfold normalize_breaks, re_sub. simpl.
  unfold match_newlines. simpl. rewrite Hc, Hrun. simpl.
  by rewrite (is_nl_true _ Hc).
Qed.

Lemma normalize_run c rest n :
  is_nl c = true -> run_length is_nl rest = S n ->
  normalize_breaks (c :: rest)
  = NL :: NL :: normalize_breaks (drop (S n) rest).
Proof.
  intros Hc Hrun. unfold normalize_breaks, re_sub. simpl.
  unfold match_newlines. simpl. rewrite Hc, Hrun. simpl.
  by rewrite re_sub_from_skip.
Qed.

Lemma run_length_drop p s : run_length p (drop (run_length p s) s) = 0.
Proof.
  induction s as [|c rest IH]; simpl; [done|].
  destruct (p c) eqn:Hc; simpl; [done|]. by rewrite Hc.
Qed.

Lemma run_length_le p s : run_length p s <= length s.
Proof. induction s as [|c rest IH]; simpl; [lia|]. destruct (p c); simpl; lia. Qed.

(** A subject that does not start with a newline keeps that after the
    substitution. *)
Lemma normalize_head s :
  run_length is_nl s = 0 -> run_length is_nl (normalize_breaks s) = 0.
Proof.
  destruct s as [|c rest]; [done|]. simpl.
  destruct (is_nl c) eqn:Hc; [done|]. intros _.
  rewrite normalize_other by done. simpl. by rewrite Hc.
Qed.

Lemma normalize_breaks_twice s :
  normalize_breaks (normalize_breaks s) = normalize_breaks s.
Proof.
  remember (length s) as n eqn:Hn. revert s Hn.
  induction n as [n IH] using lt_wf_ind. intros s Hn.
  destruct s as [|c rest]; [done|]. simpl in Hn.
  destruct (is_nl c) eqn:Hc.
  - destruct (run_length is_nl rest) as [|k] eqn:Hrun.
    + rewrite normalize_single by done.
      rewrite normalize_single; [|done|by apply normalize_head].
      f_equal. apply (IH (length rest)); [lia|done].
    + rewrite (normalize_run _ _ k) by done.
      assert (Hhead : run_length is_nl (normalize_breaks (drop (S k) rest)) = 0).
      { apply normalize_head. rewrite <- Hrun. apply run_length_drop. }
      rewrite (normalize_run _ _ 0); [|done|simpl; by rewrite Hhead].
      rewrite skipn_cons, drop_0. do 2 f_equal.
      apply (IH (length (drop (S k) rest))); [|done].
      rewrite length_drop. lia.
  - rewrite !normalize_other by done. f_equal.
    apply (IH (length rest)); [lia|done].
Qed.

End Normalisation.

(** C9: the newline-collapsing substitution of the clause segmenter is
    idempotent: substituting a second time changes nothing, so the paragraphs
    found after two passes are those found after one, and segmenting an
    already normalised text gives the clauses of the original. *)
Theorem normalize_breaks_idempotent (text : str) :
  normalize_breaks (normalize_breaks text) = normalize_breaks text
  ∧ paragraphs (normalize_breaks (normalize_breaks text))
    = paragraphs (normalize_breaks text)
  ∧ ∀ max_clauses,
      extract_clauses (normalize_breaks text) max_clauses
      = extract_clauses text max_clauses.
Proof.
  split_and!.
  - apply normalize_breaks_twice.
  - by rewrite normalize_breaks_twice.
  - intros m. unfold extract_clauses. by rewrite normalize_breaks_twice.
Qed.

(** ** Trimming *)

Section Trimming.

Lemma lstrip_head s c rest : lstrip s = c :: rest -> is_space c = false.
Proof.
  induction s as [|a s IH]; simpl; [done|].
  destruct (is_space a) eqn:Ha; [done|]. by intros [= <- _].
Qed.

Lemma lstrip_suffix s : ∃ pre, s = pre ++ lstrip s.
Proof.
  induction s as [|a s [pre IH]]; simpl; [by exists []|].
  destruct (is_space a); [|by exists []].
  exists (a :: pre). simpl. by rewrite <- IH.
Qed.

(** A stripped string neither starts nor ends with whitespace. *)
Lemma strip_trimmed s :
  (∀ c rest, strip s = c :: rest -> is_space c = false)
  ∧ (∀ init c, strip s = init ++ [c] -> is_space c = false).
Proof.
  unfold strip, rstrip.
  destruct (lstrip_suffix (reverse (lstrip s))) as [pre Hpre]. split.
  - intros c rest Hs. apply (f_equal reverse) in Hpre.
    rewrite reverse_involutive, reverse_app, Hs in Hpre. simpl in Hpre.
    by apply lstrip_head in Hpre.
  - intros init c Hs. apply (f_equal reverse) in Hs.
    rewrite reverse_involutive, reverse_app in Hs. simpl in Hs.
    by apply lstrip_head in Hs.
Qed.

End Trimming.

(** ** The clause loop *)

Section Clauses.

Abbreviation long := (λ p : str, 40 < length p).

(** Whatever the limit, the loop appends an initial segment of the long
    paragraphs. *)
Lemma clause_loop_prefix m acc ps :
  ∃ k, clause_loop m acc ps = acc ++ take k (filter long ps).
Proof.
  revert acc. induction ps as [|p ps IH]; intros acc; simpl.
  - exists 0. by rewrite app_nil_r.
  - destruct (40 <? length p) eqn:Hp.
    + apply Nat.ltb_lt in Hp. rewrite filter_cons_True by done.
      case_match.
      * by exists 1.
      * destruct (IH (acc ++ [p])) as [k ->]. exists (S k).
        by rewrite <- app_assoc.
    + apply Nat.ltb_ge in Hp. rewrite filter_cons_False by lia.
      case_match; [|apply IH].
      exists 0. by rewrite take_0, app_nil_r.
Qed.

(** Below the limit, the loop stops exactly when the limit is reached. *)
Lemma clause_loop_exact m acc ps :
  (Z.of_nat (length acc) < m)%Z ->
  clause_loop m acc ps
  = acc ++ take (Z.to_nat m - length acc) (filter long ps).
Proof.
  revert acc. induction ps as [|p ps IH]; intros acc Hacc; simpl.
  - by rewrite filter_nil, take_nil, app_nil_r.
  - destruct (40 <? length p) eqn:Hp.
    + apply Nat.ltb_lt in Hp. rewrite filter_cons_True by done.
      replace (Z.to_nat m - length acc) with (S (Z.to_nat m - S (length acc)))
        by lia.
      rewrite firstn_cons. case_match eqn:Hstop.
      * apply Z.leb_le in Hstop. rewrite length_app in Hstop. simpl in Hstop.
        replace (Z.to_nat m - S (length acc)) with 0 by lia.
        by rewrite take_0.
      * apply Z.leb_gt in Hstop. rewrite IH by done.
        rewrite length_app, <- app_assoc. simpl.
        by replace (length acc + 1) with (S (length acc)) by lia.
    + apply Nat.ltb_ge in Hp. rewrite filter_cons_False by lia.
      case_match eqn:Hstop; [|by apply IH].
      apply Z.leb_le in Hstop. lia.
Qed.

Lemma extract_clauses_take text m :
  (1 <= m)%Z ->
  extract_clauses text m
  = take (Z.to_nat m) (filter long (paragraphs (normalize_breaks text))).
Proof.
  intros Hm. unfold extract_clauses. rewrite clause_loop_exact by (simpl; lia).
  simpl. by rewrite Nat.sub_0_r.
Qed.

(** With a limit of at least one the result never exceeds it. *)
Lemma extract_clauses_bounded text m :
  (1 <= m)%Z -> (Z.of_nat (length (extract_clauses text m)) <= m)%Z.
Proof.
  intros Hm. rewrite extract_clauses_take by done. rewrite length_take. lia.
Qed.

(** Entries are trimmed non-empty pieces of the split, longer than 40. *)
Lemma extract_clauses_entries text m c :
  c ∈ extract_clauses text m ->
  40 < length c
  ∧ c ≠ []
  ∧ ∃ piece,
      piece ∈ re_split match_blank_line (normalize_breaks text)
      ∧ c = strip piece.
Proof.
  unfold extract_clauses.
  destruct (clause_loop_prefix m [] (paragraphs (normalize_breaks text)))
    as [k ->]. simpl.
  intros Hc. apply elem_of_sublist with (l2 := filter long (paragraphs (normalize_breaks text))) in Hc;
    [|apply sublist_take].
  apply list_elem_of_filter in Hc as [Hlen Hc]. split; [done|].
  unfold paragraphs in Hc. apply list_elem_of_filter in Hc as [Hne Hc].
  split; [done|]. apply list_elem_of_fmap in Hc as (piece & -> & Hpiece).
  by exists piece.
Qed.

(** Entries come in document order: the result is a subsequence of the
    paragraph list. *)
Lemma extract_clauses_order text m :
  extract_clauses text m `sublist_of` paragraphs (normalize_breaks text).
Proof.
  unfold extract_clauses.
  destruct (clause_loop_prefix m [] (paragraphs (normalize_breaks text)))
    as [k ->]. simpl.
  etrans; [apply sublist_take|]. apply sublist_filter.
Qed.

(** No paragraph over 40 characters, no clause. *)
Lemma extract_clauses_none text m :
  Forall (λ p, length p <= 40) (paragraphs (normalize_breaks text)) ->
  extract_clauses text m = [].
Proof.
  intros Hshort. unfold extract_clauses.
  destruct (clause_loop_prefix m [] (paragraphs (normalize_breaks text)))
    as [k ->]. simpl.
  replace (filter long (paragraphs (normalize_breaks text))) with (@nil str);
    [by rewrite take_nil|].
  induction Hshort as [|p ps Hp _ IH]; [done|].
  by rewrite filter_cons_False by lia.
Qed.

End Clauses.

(** C2: with [max_clauses = 0] and a first paragraph of 41 characters the
    segmenter returns that paragraph: one entry where the limit allows none.
    The limit is tested only after the append. *)
Theorem extract_clauses_zero_limit_overshoot :
  extract_clauses Demo.long_line 0 = [Demo.long_line]
  ∧ (0 < Z.of_nat (length (extract_clauses Demo.long_line 0)))%Z.
Proof. split; [by vm_compute|by vm_compute]. Qed.

(** ** Words and chunks *)

Section Chunking.

Lemma slice_step {A} (l : list A) i step :
  slice l i (i + step) = take step (drop i l).
Proof. unfold slice. f_equal. lia. Qed.

Lemma py_range_from_0 stop step :
  py_range 0 stop step = map (λ k, k * step) (seq 0 ((stop + step - 1) / step)).
Proof. unfold py_range. by rewrite Nat.sub_0_r. Qed.

Lemma word_slices_alt (ws : list str) step :
  word_slices ws step
  = map (λ k, take step (drop (k * step) ws))
        (seq 0 ((length ws + step - 1) / step)).
Proof.
  unfold word_slices. rewrite py_range_from_0, map_map.
  apply map_ext. intros k. apply slice_step.
Qed.

(** [m] windows of width [step] cover a list of at most [m * step] items. *)
Lemma windows_concat {A} step m (l : list A) :
  length l <= m * step ->
  concat (map (λ k, take step (drop (k * step) l)) (seq 0 m)) = l.
Proof.
  revert l. induction m as [|m IH]; intros l Hlen.
  - simpl in *. by destruct l; [|simpl in Hlen; lia].
  - simpl seq. rewrite <- seq_shift, map_cons, map_map. simpl concat.
    rewrite drop_0. etrans; [|apply (take_drop step l)]. f_equal.
    etrans; [|apply (IH (drop step l)); rewrite length_drop; lia].
    f_equal. apply map_ext. intros k. by rewrite drop_drop.
Qed.

Lemma ceil_div_covers n step : 0 < step -> n <= (n + step - 1) / step * step.
Proof.
  intros Hstep.
  pose proof (Nat.mul_succ_div_gt (n + step - 1) step ltac:(lia)). lia.
Qed.

Lemma ceil_div_last n step k :
  0 < step -> k < (n + step - 1) / step -> k * step < n.
Proof.
  intros Hstep Hk.
  pose proof (Nat.Div0.mul_div_le (n + step - 1) step). nia.
Qed.

Lemma word_slices_concat (ws : list str) step :
  0 < step -> concat (word_slices ws step) = ws.
Proof.
  intros Hstep. rewrite word_slices_alt. apply windows_concat.
  by apply ceil_div_covers.
Qed.

Lemma word_slices_length (ws : list str) step :
  length (word_slices ws step) = (length ws + step - 1) / step.
Proof. by rewrite word_slices_alt, length_map, length_seq. Qed.

Lemma word_slices_sizes (ws : list str) step :
  0 < step ->
  Forall (λ sl, 1 <= length sl <= step) (word_slices ws step).
Proof.
  intros Hstep. rewrite word_slices_alt. apply List.Forall_forall.
  intros sl Hin. apply in_map_iff in Hin as (k & <- & Hk).
  apply in_seq in Hk as [_ Hk]. simpl in Hk.
  apply ceil_div_last in Hk; [|done].
  rewrite length_take, length_drop. lia.
Qed.

Lemma chunk_text_slices text step :
  chunk_text text step = map (join [SP]) (word_slices (split text) step).
Proof. unfold chunk_text, word_slices. by rewrite map_map. Qed.

End Chunking.

(** ** [split] and [join] *)

Section Words.

Lemma split_from_word w x rest :
  Forall (λ c, is_space c = false) x ->
  split_from w (x ++ rest) = split_from (w ++ x) rest.
Proof.
  intros Hx. revert w. induction Hx as [|c x Hc _ IH]; intros w; simpl.
  - by rewrite app_nil_r.
  - rewrite Hc, IH. by rewrite <- app_assoc.
Qed.

Lemma split_from_words w s :
  Forall (λ c, is_space c = false) w -> Forall is_word (split_from w s).
Proof.
  revert w. induction s as [|c rest IH]; intros w Hw; simpl.
  - destruct w; [constructor|]. constructor; [by split|constructor].
  - destruct (is_space c) eqn:Hc.
    + destruct w; [by apply IH|].
      constructor; [by split|]. by apply IH.
    + apply IH. apply Forall_app. split; [done|]. by constructor.
Qed.

Lemma split_words s : Forall is_word (split s).
Proof. by apply split_from_words. Qed.

(** Joining words with single spaces and splitting again gives the words
    back. *)
Lemma split_join ws : Forall is_word ws -> split (join [SP] ws) = ws.
Proof.
  induction 1 as [|w1 ws [Hne Hw1] Hws IH]; [done|].
  unfold split in *. destruct ws as [|w2 ws'].
  - pose proof (split_from_word [] w1 [] Hw1) as Hsplit.
    rewrite app_nil_r in Hsplit. simpl in *. rewrite Hsplit. by destruct w1.
  - change (join [SP] (w1 :: w2 :: ws'))
      with (w1 ++ SP :: join [SP] (w2 :: ws')).
    revert IH. generalize (join [SP] (w2 :: ws')). intros rest IH.
    rewrite split_from_word by done. destruct w1; [done|].
    simpl. by rewrite IH.
Qed.

(** The chunks are word-bounded: splitting a chunk gives back its slice of
    the word list, and the words of the chunks, in order, are the words of
    the text. *)
Lemma chunk_text_words text step :
  map split (chunk_text text step) = word_slices (split text) step.
Proof.
  rewrite chunk_text_slices, map_map. rewrite <- (map_id (word_slices _ _)) at 2.
  apply map_ext_in. intros sl Hin. apply split_join.
  rewrite word_slices_alt in Hin. apply in_map_iff in Hin as (k & <- & _).
  apply Forall_take, Forall_drop, split_words.
Qed.

Lemma chunk_text_partition text step :
  0 < step -> concat (map split (chunk_text text step)) = split text.
Proof. intros. rewrite chunk_text_words. by apply word_slices_concat. Qed.

End Words.

(** ** The summarizer's calls *)

Section Summarizer.
Context {World : Type} (env : capabilities World).

Lemma get_summarizer_calls st r st0 :
  get_summarizer env st = (r, st0) -> calls st0 = calls st.
Proof.
  unfold get_summarizer. destruct (_summarizer st).
  - by intros [= _ <-].
  - destruct (pipeline env Summarization (world st)) as [[[]|e] w];
      by intros [= _ <-].
Qed.

(** One invocation: exactly one entry in the log, whatever comes back. *)
Lemma summarize_once_calls text max_length min_length st :
  ∃ r st',
    summarize_once env text max_length min_length st = (r, st')
    ∧ calls st' = calls st ++ [CallSummarizer text max_length min_length true].
Proof.
  unfold summarize_once, summarizer, invoke, mbind, M_bind.
  destruct (run_summarizer env text max_length min_length true (world st))
    as [[[|top rest]|e] w]; simpl; eauto.
Qed.

End Summarizer.

Section Summarizer_replies.
Context {World : Type} (env : capabilities World).

Lemma summarize_once_reply text max_length min_length st :
  summarize_once env text max_length min_length st
  = (first_candidate
       (run_summarizer env text max_length min_length true (world st)).1,
     set_world
       (run_summarizer env text max_length min_length true (world st)).2
       (log_call (CallSummarizer text max_length min_length true) st)).
Proof.
  unfold summarize_once, summarizer, invoke, mbind, M_bind.
  by destruct (run_summarizer env text max_length min_length true (world st))
    as [[[|top rest]|e] w].
Qed.

Lemma summarize_chunks_cons c chunks st :
  mapM (λ c, summarize_once env c 120 30) (c :: chunks) st
  = match summarize_once env c 120 30 st with
    | (Returns s, st1) =>
        match mapM (λ c, summarize_once env c 120 30) chunks st1 with
        | (Returns partials, st2) => (Returns (s :: partials), st2)
        | (Raises e, st2) => (Raises e, st2)
        end
    | (Raises e, st1) => (Raises e, st1)
    end.
Proof.
  simpl. unfold mbind, M_bind at 1.
  destruct (summarize_once env c 120 30 st) as [[s|e] st1]; [|done].
  unfold mbind, M_bind.
  by destruct (mapM (λ c, summarize_once env c 120 30) chunks st1) as [[|]].
Qed.

(** The map phase of the program does what the summarizer's answers
    dictate. *)
Lemma summarize_chunks_first_pass chunks st :
  ∃ st',
    world st' = (first_pass env chunks (world st)).2
    ∧ match (first_pass env chunks (world st)).1 with
      | AllAnswered partials =>
          mapM (λ c, summarize_once env c 120 30) chunks st
          = (Returns partials, st')
          ∧ length partials = length chunks
          ∧ calls st' = calls st ++ map chunk_call chunks
      | FailedAt k e =>
          mapM (λ c, summarize_once env c 120 30) chunks st = (Raises e, st')
          ∧ k < length chunks
          ∧ calls st' = calls st ++ map chunk_call (take (S k) chunks)
      end.
Proof.
  revert st. induction chunks as [|c chunks IH]; intros st.
  - exists st. simpl. by rewrite app_nil_r.
  - rewrite summarize_chunks_cons, summarize_once_reply. simpl.
    destruct (run_summarizer env c 120 30 true (world st))
      as [[[|top rest]|e] w1] eqn:Hrun; cbn [fst snd first_candidate].
    + exists (set_world w1 (log_call (CallSummarizer c 120 30 true) st)).
      split; [done|]. split_and!; [done|simpl; lia|done].
    + set (st1 := set_world w1 (log_call (CallSummarizer c 120 30 true) st)).
      destruct (IH st1) as (st' & Hw & Hcase).
      change (world st1) with w1 in *.
      exists st'.
      destruct (first_pass env chunks w1) as [[ps|k e] w'];
        cbn [fst snd] in *.
      * destruct Hcase as (-> & Hlen & Hcalls). split; [done|].
        split_and!; [done|simpl; lia|].
        rewrite Hcalls. simpl. by rewrite <- app_assoc.
      * destruct Hcase as (-> & Hlen & Hcalls). split; [done|].
        split_and!; [done|simpl; lia|].
        rewrite Hcalls. simpl. by rewrite <- app_assoc.
    + exists (set_world w1 (log_call (CallSummarizer c 120 30 true) st)).
      split; [done|]. split_and!; [done|simpl; lia|done].
Qed.

Lemma first_pass_answers chunks w :
  summarizer_answers env ->
  ∃ partials w1, first_pass env chunks w = (AllAnswered partials, w1).
Proof.
  intros Hans. revert w. induction chunks as [|c chunks IH]; intros w.
  - by eexists _, _.
  - simpl. destruct (Hans c 120%Z 30%Z true w) as (top & rest & w1 & ->).
    destruct (IH w1) as (ps & w' & ->). by eexists _, _.
Qed.

Lemma first_pass_app l1 l2 w ps w1 :
  first_pass env l1 w = (AllAnswered ps, w1) ->
  first_pass env (l1 ++ l2) w
  = match first_pass env l2 w1 with
    | (AllAnswered qs, w') => (AllAnswered (ps ++ qs), w')
    | (FailedAt k e, w') => (FailedAt (length l1 + k) e, w')
    end.
Proof.
  revert w ps. induction l1 as [|c l1 IH]; intros w ps Hfirst.
  - injection Hfirst as <- <-. simpl. by destruct (first_pass env l2 w) as [[|]].
  - simpl in *.
    destruct (run_summarizer env c 120 30 true w) as [[[|top rest]|e] w0];
      [done| |done].
    destruct (first_pass env l1 w0) as [[ps0|k e] w0'] eqn:Hl1; [|done].
    injection Hfirst as <- <-. rewrite (IH _ _ Hl1).
    by destruct (first_pass env l2 w0') as [[|]].
Qed.

(** Reading [AllAnswered]: partial [i] is the text of the first candidate
    of the answer to the call on chunk [i], made after the calls on the
    chunks before it. *)
Lemma first_pass_partial chunks w partials w1 i c :
  first_pass env chunks w = (AllAnswered partials, w1) ->
  chunks !! i = Some c ->
  ∃ wi top rest wi',
    first_pass env (take i chunks) w = (AllAnswered (take i partials), wi)
    ∧ run_summarizer env c 120 30 true wi = (Returns (top :: rest), wi')
    ∧ partials !! i = Some (summary_text top).
Proof.
  revert w partials i. induction chunks as [|c0 chunks IH];
    intros w partials i Hall Hi; [done|].
  simpl in Hall.
  destruct (run_summarizer env c0 120 30 true w) as [[[|top rest]|e] w0]
    eqn:Hrun; [done| |done].
  destruct (first_pass env chunks w0) as [[ps0|k e] w0'] eqn:Hrest; [|done].
  injection Hall as <- <-. destruct i as [|i].
  - injection Hi as <-. by exists w, top, rest, w0.
  - simpl in Hi. destruct (IH _ _ _ Hrest Hi) as (wi & t & r & wi' & H1 & H2 & H3).
    exists wi, t, r, wi'. split_and!; [|done..].
    simpl. by rewrite Hrun, H1.
Qed.

End Summarizer_replies.

Section Summarizer_failures.
Context {World : Type} (env : capabilities World).

(** Reading [FailedAt]: the calls before number [k] each gave a candidate,
    and call [k] raised or gave none. *)
Lemma first_pass_failed chunks w k e w' :
  first_pass env chunks w = (FailedAt k e, w') ->
  ∃ c partials wk,
    chunks !! k = Some c
    ∧ first_pass env (take k chunks) w = (AllAnswered partials, wk)
    ∧ first_candidate (run_summarizer env c 120 30 true wk).1 = Raises e
    ∧ w' = (run_summarizer env c 120 30 true wk).2.
Proof.
  revert w k. induction chunks as [|c0 chunks IH]; intros w k Hfail; [done|].
  simpl in Hfail.
  destruct (run_summarizer env c0 120 30 true w) as [[[|top rest]|e0] w0]
    eqn:Hrun.
  - injection Hfail as <- <- <-. exists c0, [], w. by rewrite Hrun.
  - destruct (first_pass env chunks w0) as [[ps0|j e0] w0'] eqn:Hrest; [done|].
    injection Hfail as <- <- <-.
    destruct (IH _ _ Hrest) as (c & ps & wk & Hc & Htake & Hout & Hw).
    exists c, (summary_text top :: ps), wk. split_and!; [done| |done..].
    simpl. by rewrite Hrun, Htake.
  - injection Hfail as <- <- <-. exists c0, [], w. by rewrite Hrun.
Qed.

Lemma first_pass_fails_at chunks w k c partials wk e :
  chunks !! k = Some c ->
  first_pass env (take k chunks) w = (AllAnswered partials, wk) ->
  first_candidate (run_summarizer env c 120 30 true wk).1 = Raises e ->
  first_pass env chunks w
  = (FailedAt k e, (run_summarizer env c 120 30 true wk).2).
Proof.
  intros Hc Htake Hout.
  rewrite <- (take_drop_middle chunks k c Hc) at 1.
  rewrite (first_pass_app env _ _ _ _ _ Htake). simpl.
  destruct (run_summarizer env c 120 30 true wk) as [[[|top rest]|e0] w0];
    simpl in Hout; [|done|]; injection Hout as <-;
    (rewrite length_take_le, Nat.add_0_r;
     [done|apply lookup_lt_Some in Hc; lia]).
Qed.

(** A text of 800 words or more: the run after [get_summarizer], read off
    the answers of the summarizer. *)
Lemma summarize_text_long_run text max_length st st0 :
  get_summarizer env st = (Returns (), st0) ->
  800 <= length (split text) ->
  let chunks := chunk_text text 700 in
  ∃ st',
    match first_pass env chunks (world st0) with
    | (AllAnswered partials, w1) =>
        length partials = length chunks
        ∧ summarize_text env text max_length st
          = (first_candidate
               (run_summarizer env (join [SP] partials) max_length 50 true
                  w1).1, st')
        ∧ calls st'
          = calls st ++ map chunk_call chunks
            ++ [CallSummarizer (join [SP] partials) max_length 50 true]
    | (FailedAt k e, w1) =>
        k < length chunks
        ∧ summarize_text env text max_length st = (Raises e, st')
        ∧ world st' = w1
        ∧ calls st' = calls st ++ map chunk_call (take (S k) chunks)
    end.
Proof.
  intros Hget Hlong%Nat.ltb_ge chunks.
  pose proof (get_summarizer_calls env _ _ _ Hget) as Hc0.
  assert (Hrun : summarize_text env text max_length st
                 = match mapM (λ c, summarize_once env c 120 30) chunks st0 with
                   | (Returns partials, st1) =>
                       summarize_once env (join [SP] partials) max_length 50 st1
                   | (Raises e, st1) => (Raises e, st1)
                   end).
  { unfold summarize_text, mbind, M_bind at 1. rewrite Hget, Hlong.
    unfold mbind, M_bind. unfold default_max_words. fold chunks.
    by destruct (mapM (λ c, summarize_once env c 120 30) chunks st0)
      as [[partials|e] st1]. }
  destruct (summarize_chunks_first_pass env chunks st0) as (st1 & Hw & Hcase).
  destruct (first_pass env chunks (world st0)) as [[partials|k e] w1];
    simpl in Hw, Hcase; destruct Hcase as (Hmap & Hlen & Hc1);
    rewrite Hmap in Hrun.
  - rewrite summarize_once_reply, Hw in Hrun. eexists. split_and!; [done..|].
    simpl. by rewrite Hc1, Hc0, <- app_assoc.
  - exists st1. split_and!; [done..|]. by rewrite Hc1, Hc0.
Qed.

End Summarizer_failures.

(** C1, as amended: once [get_summarizer] has handed over the pipeline, a
    text of fewer than 800 words leads to exactly one summarizer call, on
    the text itself with [max_length], [min_length=30], [truncation=True],
    and the outcome is read off its answer.  A text of 800 words or more is
    cut into [ceil(words/700)] chunks, each made of at most 700 consecutive
    words joined by single spaces, the chunks together holding the words of
    the text in order.  The chunk calls are made with [max_length=120],
    [min_length=30], [truncation=True], one after the other in chunk order.
    When the summarizer answers each of them with at least one candidate
    (as does a summarizer that answers every call so), partial summary [i]
    is the text of the first candidate of the answer to the call on chunk
    [i], and one last call summarizes the partial summaries joined by single
    spaces, with [max_length], [min_length=50], [truncation=True]; the
    outcome is read off the answer to that last call. *)
Theorem summarize_text_call_pattern {World} (env : capabilities World)
    (text : str) (max_length : Z) (st st0 : state World) :
  get_summarizer env st = (Returns (), st0) ->
  (length (split text) < 800 ->
     ∃ st',
       summarize_text env text max_length st
       = (first_candidate
            (run_summarizer env text max_length 30 true (world st0)).1, st')
       ∧ calls st' = calls st ++ [CallSummarizer text max_length 30 true])
  ∧ (800 <= length (split text) ->
     let chunks := chunk_text text 700 in
     length chunks = (length (split text) + 699) / 700
     ∧ concat (map split chunks) = split text
     ∧ Forall (λ c, c = join [SP] (split c) ∧ 1 <= length (split c) <= 700)
              chunks
     ∧ (summarizer_answers env ->
        ∃ partials w1,
          first_pass env chunks (world st0) = (AllAnswered partials, w1))
     ∧ ∀ partials w1,
         first_pass env chunks (world st0) = (AllAnswered partials, w1) ->
         length partials = length chunks
         ∧ (∀ i c, chunks !! i = Some c ->
              ∃ wi top rest wi',
                first_pass env (take i chunks) (world st0)
                = (AllAnswered (take i partials), wi)
                ∧ run_summarizer env c 120 30 true wi
                  = (Returns (top :: rest), wi')
                ∧ partials !! i = Some (summary_text top))
         ∧ ∃ st',
             summarize_text env text max_length st
             = (first_candidate
                  (run_summarizer env (join [SP] partials) max_length 50 true
                     w1).1, st')
             ∧ calls st'
               = calls st
                 ++ map (λ c, CallSummarizer c 120 30 true) chunks
                 ++ [CallSummarizer (join [SP] partials) max_length 50 true]).
Proof.
  intros Hget. pose proof (get_summarizer_calls env _ _ _ Hget) as Hcalls0.
  split.
  - intros Hshort%Nat.ltb_lt. eexists.
    unfold summarize_text, mbind, M_bind at 1.
    rewrite Hget, Hshort, summarize_once_reply. split; [done|].
    simpl. by rewrite Hcalls0.
  - intros Hlong chunks. split_and!.
    + unfold chunks. rewrite chunk_text_slices, length_map, word_slices_length.
      f_equal. lia.
    + apply chunk_text_partition. lia.
    + unfold chunks. apply List.Forall_forall. intros c Hc.
      pose proof (word_slices_sizes (split text) 700 ltac:(lia)) as Hsizes.
      rewrite <- chunk_text_words in Hsizes.
      rewrite List.Forall_forall in Hsizes.
      split; [|apply Hsizes; by apply in_map].
      rewrite chunk_text_slices in Hc. apply in_map_iff in Hc as (sl & <- & Hsl).
      rewrite split_join; [done|].
      rewrite word_slices_alt in Hsl. apply in_map_iff in Hsl as (k & <- & _).
      apply Forall_take, Forall_drop, split_words.
    + intros Hans. by apply first_pass_answers.
    + intros partials w1 Hall.
      destruct (summarize_text_long_run env text max_length st st0 Hget Hlong)
        as (st' & Hcase).
      fold chunks in Hcase. rewrite Hall in Hcase.
      destruct Hcase as (Hlen & Hrun & Hcalls). split_and!; [done| |by exists st'].
      intros i c Hc. by eapply first_pass_partial.
Qed.

Lemma summarize_text_call_pattern_witness :
  ∃ final st',
    summarize_text Demo.env Demo.long_text 200 Demo.start = (Returns final, st')
    ∧ length (calls st') = 3.
Proof.
  destruct (summarize_text_call_pattern Demo.env Demo.long_text 200
              Demo.start _ eq_refl) as [_ Hlong].
  destruct Hlong as (Hn & _ & _ & Hans & Hall).
  - vm_compute. lia.
  - destruct Hans as (partials & w1 & Hfirst).
    { intros text a b t w. by eexists _, _, _. }
    destruct (Hall partials w1 Hfirst) as (_ & _ & st' & Hrun & Hcalls).
    exists (take 8 (join [SP] partials)), st'. split; [exact Hrun|].
    rewrite Hcalls, !length_app, length_map, Hn. by vm_compute.
Defined.

(** C1, as stated, fails: where the summarization model cannot be
    constructed a short text leads to no summarizer call at all, and where
    the second chunk call raises a text of 1500 words (three chunks) leads
    to two calls instead of three and one. *)
Lemma summarize_text_calls_fall_short :
  (length (split (u "Short text.")) < 800
   ∧ ∃ st',
       summarize_text Samples.no_summarizer_env (u "Short text.") 200 Demo.start
       = (Raises (Failure 2), st')
       ∧ calls st' = [])
  ∧ (800 <= length (split Samples.text_1500)
     ∧ length (chunk_text Samples.text_1500 700) = 3
     ∧ ∃ st',
         summarize_text Samples.flaky_env Samples.text_1500 200 Demo.start
         = (Raises (Failure 9), st')
         ∧ length (calls st') = 2).
Proof.
  split_and!; [vm_compute; lia|by exists Demo.start|vm_compute; lia
              |by vm_compute|].
  eexists. split; [by vm_compute|]. by vm_compute.
Qed.

(** ** [dict.fromkeys] keeps first occurrences *)

Section Dedupe.

Lemma dict_keys_setitem {V} k (v : V) (d : dict V) :
  dict_keys (dict_setitem k v d) = add_key (dict_keys d) k.
Proof.
  unfold dict_keys, add_key. induction d as [|[k' v'] d IH].
  - done.
  - cbn [dict_setitem]. destruct (decide (k = k')) as [->|Hne].
    + rewrite fmap_cons. cbn [fst].
      rewrite decide_True by apply list_elem_of_here. by rewrite fmap_cons.
    + rewrite !fmap_cons, IH. cbn [fst].
      destruct (decide (k ∈ d.*1)) as [Hin|Hnin].
      * by rewrite decide_True by by apply list_elem_of_further.
      * rewrite decide_False; [done|].
        intros [?|?]%elem_of_cons; done.
Qed.

Lemma dedupe_fold_from (d : dict unit) l :
  dict_keys (foldl (λ d k, dict_setitem k () d) d l)
  = foldl add_key (dict_keys d) l.
Proof.
  revert d. induction l as [|k l IH]; intros d; simpl; [done|].
  by rewrite IH, dict_keys_setitem.
Qed.

Lemma dedupe_fold l : dedupe l = foldl add_key [] l.
Proof. unfold dedupe, dict_fromkeys. by rewrite dedupe_fold_from. Qed.

Lemma first_index_seen x (seen : list str) :
  x ∈ seen -> ∃ a, first_index x seen = Some a ∧ a < length seen.
Proof.
  intros Hin. unfold first_index.
  destruct (list_find_elem_of (λ y, y = x) seen x Hin eq_refl) as [[a y] Hfind].
  rewrite Hfind. exists a. split; [done|].
  apply list_find_Some in Hfind as (Hlook & _). by eapply lookup_lt_Some.
Qed.

Lemma first_index_app_l x (seen more : list str) a :
  first_index x seen = Some a -> first_index x (seen ++ more) = Some a.
Proof.
  unfold first_index. intros Hfind.
  destruct (list_find (λ y, y = x) seen) as [[a' y]|] eqn:Hseen; [|done].
  by rewrite (list_find_app_l _ _ _ _ _ Hseen).
Qed.

Lemma first_index_new x (seen : list str) :
  x ∉ seen -> first_index x (seen ++ [x]) = Some (length seen).
Proof.
  intros Hnew. unfold first_index. rewrite list_find_app_r.
  - simpl. by rewrite decide_True.
  - apply list_find_None, Forall_forall. by intros y Hy ->.
Qed.

(** One more key keeps the three facts that make up first-occurrence
    deduplication. *)
Lemma add_key_step (seen acc : list str) k :
  NoDup acc -> (∀ x, x ∈ acc ↔ x ∈ seen) -> first_occurrence_order acc seen ->
  NoDup (add_key acc k)
  ∧ (∀ x, x ∈ add_key acc k ↔ x ∈ seen ++ [k])
  ∧ first_occurrence_order (add_key acc k) (seen ++ [k]).
Proof.
  intros Hnd Hel Hord. unfold add_key.
  destruct (decide (k ∈ acc)) as [Hin|Hnew].
  - split_and!; [done| |].
    + intros x. rewrite elem_of_app, list_elem_of_singleton, <- Hel.
      split; [by left|]. by intros [?| ->].
    + intros i j f g Hi Hj Hlt.
      destruct (Hord i j f g Hi Hj Hlt) as (a & b & Ha & Hb & Hab).
      exists a, b. split_and!; [by apply first_index_app_l..|done].
  - split_and!.
    + apply NoDup_app. split_and!; [done| |apply NoDup_singleton].
      by intros x Hx ->%list_elem_of_singleton.
    + intros x. by rewrite !elem_of_app, Hel.
    + intros i j f g Hi Hj Hlt.
      apply lookup_snoc_Some in Hj as [[Hjlt Hj]|[-> ->]].
      * rewrite lookup_app_l in Hi by lia.
        destruct (Hord i j f g Hi Hj Hlt) as (a & b & Ha & Hb & Hab).
        exists a, b. split_and!; [by apply first_index_app_l..|done].
      * rewrite lookup_app_l in Hi by done.
        apply list_elem_of_lookup_2, Hel, first_index_seen in Hi
          as (a & Ha & Hlen).
        exists a, (length seen). split_and!; [|apply first_index_new|done].
        -- by apply first_index_app_l.
        -- by rewrite <- Hel.
Qed.

Lemma add_keys_spec (seen acc l : list str) :
  NoDup acc -> (∀ x, x ∈ acc ↔ x ∈ seen) -> first_occurrence_order acc seen ->
  NoDup (foldl add_key acc l)
  ∧ (∀ x, x ∈ foldl add_key acc l ↔ x ∈ seen ++ l)
  ∧ first_occurrence_order (foldl add_key acc l) (seen ++ l).
Proof.
  revert seen acc. induction l as [|k l IH]; intros seen acc Hnd Hel Hord.
  - simpl. by rewrite app_nil_r.
  - simpl. destruct (add_key_step seen acc k Hnd Hel Hord) as (Hnd' & Hel' & Hord').
    rewrite cons_middle, app_assoc. by apply IH.
Qed.

Lemma dedupe_spec l :
  NoDup (dedupe l)
  ∧ (∀ x, x ∈ dedupe l ↔ x ∈ l)
  ∧ first_occurrence_order (dedupe l) l.
Proof.
  rewrite dedupe_fold. apply (add_keys_spec [] [] l).
  - constructor.
  - done.
  - intros i j f g Hi. by rewrite lookup_nil in Hi.
Qed.

End Dedupe.

(** ** Substring test *)

Section Substring.

Lemma is_prefix_spec p s : is_prefix p s = true ↔ ∃ post, s = p ++ post.
Proof.
  revert s. induction p as [|a p IH]; intros s; simpl.
  - split; [by exists s|done].
  - destruct s as [|b s].
    + split; [done|]. by intros [post ?].
    + rewrite andb_true_iff, N.eqb_eq, IH. split.
      * intros [-> [post ->]]. by exists post.
      * intros [post [= -> ->]]. split; [done|]. by exists post.
Qed.

Lemma contains_spec needle hay :
  contains needle hay = true ↔ ∃ pre post, hay = pre ++ needle ++ post.
Proof.
  induction hay as [|c hay IH]; simpl; rewrite orb_true_iff, is_prefix_spec.
  - split.
    + intros [[post ->]|?]; [|done]. by exists [], post.
    + intros (pre & post & Heq). left.
      destruct pre; [by exists post|done].
  - rewrite IH. split.
    + intros [[post ->]|(pre & post & ->)]; [by exists [], post|].
      by exists (c :: pre), post.
    + intros ([|c' pre] & post & Heq).
      * left. by exists post.
      * right. injection Heq as -> ->. by exists pre, post.
Qed.

End Substring.

(** ** The risk flagger *)

Section Flagger.
Context {World : Type} (env : capabilities World).

Lemma get_nli_calls st r st0 :
  get_nli env st = (r, st0) -> calls st0 = calls st.
Proof.
  unfold get_nli. destruct (_nli_classifier st).
  - by intros [= _ <-].
  - destruct (pipeline env TextClassification (world st)) as [[[]|e] w];
      by intros [= _ <-].
Qed.

(** What one pass through the [try] block leaves behind. *)
Lemma check_pair_cases clause h flagged st :
  let st' := set_world (run_nli env clause h (world st)).2
               (log_call (CallNli clause h) st) in
  check_pair env clause h flagged st
  = (Returns
       match (run_nli env clause h (world st)).1 with
       | Returns (top :: _) =>
           if entails env top then flagged ++ [finding h clause] else flagged
       | _ => flagged
       end, st').
Proof.
  unfold check_pair, try_except, nli, invoke, mbind, M_bind.
  destruct (run_nli env clause h (world st)) as [[[|top rest]|e] w]; simpl;
    try done.
  by destruct (entails env top).
Qed.

Lemma check_pair_step clause h flagged st :
  ∃ new st',
    check_pair env clause h flagged st = (Returns (flagged ++ new), st')
    ∧ calls st' = calls st ++ [CallNli clause h]
    ∧ new `sublist_of` [finding h clause].
Proof.
  rewrite check_pair_cases. cbv zeta.
  destruct (run_nli env clause h (world st)) as [[[|top rest]|e] w]; simpl.
  1,3: exists []; eexists; rewrite app_nil_r;
       split_and!; [done..|apply sublist_nil_l].
  destruct (entails env top).
  - exists [finding h clause]. eexists. by split_and!.
  - exists []. eexists. rewrite app_nil_r.
    split_and!; [done..|apply sublist_nil_l].
Qed.

(** The inner loop: every hypothesis is put to the classifier, in order,
    whatever the classifier does. *)
Lemma hypotheses_loop clause hs flagged st :
  ∃ new st',
    for_each hs (λ h acc, check_pair env clause h acc) flagged st
    = (Returns (flagged ++ new), st')
    ∧ calls st' = calls st ++ map (CallNli clause) hs
    ∧ new `sublist_of` map (λ h, finding h clause) hs.
Proof.
  revert flagged st. induction hs as [|h hs IH]; intros flagged st.
  - exists [], st. simpl. by rewrite !app_nil_r.
  - destruct (check_pair_step clause h flagged st) as (n1 & st1 & H1 & Hc1 & Hs1).
    destruct (IH (flagged ++ n1) st1) as (n2 & st2 & H2 & Hc2 & Hs2).
    exists (n1 ++ n2), st2. simpl. unfold mbind, M_bind at 1.
    rewrite H1, H2. split_and!.
    + by rewrite app_assoc.
    + by rewrite Hc2, Hc1, <- app_assoc.
    + by apply (sublist_app n1 [_] n2).
Qed.

(** The outer loop. *)
Lemma clauses_loop clauses flagged st :
  ∃ new st',
    for_each clauses
      (λ clause acc,
         for_each hypotheses (λ h acc, check_pair env clause h acc) acc)
      flagged st
    = (Returns (flagged ++ new), st')
    ∧ calls st' = calls st ++ scan_calls clauses
    ∧ new `sublist_of` scan_findings clauses.
Proof.
  revert flagged st. induction clauses as [|c cs IH]; intros flagged st.
  - exists [], st. simpl. by rewrite !app_nil_r.
  - destruct (hypotheses_loop c hypotheses flagged st)
      as (n1 & st1 & H1 & Hc1 & Hs1).
    destruct (IH (flagged ++ n1) st1) as (n2 & st2 & H2 & Hc2 & Hs2).
    exists (n1 ++ n2), st2. cbn [for_each]. unfold mbind, M_bind at 1.
    rewrite H1, H2. unfold scan_calls, scan_findings. rewrite !bind_cons.
    split_and!.
    + by rewrite app_assoc.
    + by rewrite Hc2, Hc1, <- app_assoc.
    + by apply sublist_app.
Qed.

(** The scan never raises, queries all pairs in scan order and collects a
    subsequence of the candidate findings. *)
Lemma scan_total clauses st :
  ∃ flagged st',
    scan env clauses st = (Returns flagged, st')
    ∧ calls st' = calls st ++ scan_calls clauses
    ∧ flagged `sublist_of` scan_findings clauses.
Proof.
  destruct (clauses_loop clauses [] st) as (new & st' & Hrun & Hcalls & Hsub).
  by exists new, st'.
Qed.

End Flagger.

Section Flagger_replies.
Context {World : Type} (env : capabilities World).

Lemma answer_entails_spec (out : result (list classification)) :
  answer_entails env out = true
  ↔ ∃ top rest,
      out = Returns (top :: rest)
      ∧ (∃ pre post, py_upper env (label top) = pre ++ u "ENTAIL" ++ post)
      ∧ PrimFloat.ltb THRESHOLD (score top) = true.
Proof.
  destruct out as [[|top rest]|e]; simpl.
  1,3: split; [done|by intros (? & ? & [=] & _)].
  unfold entails. rewrite andb_true_iff, contains_spec. split.
  - intros [Hlabel Hscore]. by exists top, rest.
  - by intros (? & ? & [= <- <-] & Hlabel & Hscore).
Qed.

(** One pass through the [try] block, read off the classifier's answer. *)
Lemma check_pair_reply clause h flagged st :
  check_pair env clause h flagged st
  = (Returns
       (flagged
        ++ if answer_entails env (run_nli env clause h (world st)).1
           then [finding h clause] else []),
     set_world (run_nli env clause h (world st)).2
       (log_call (CallNli clause h) st)).
Proof.
  rewrite check_pair_cases. cbv zeta. f_equal. f_equal.
  destruct (run_nli env clause h (world st)).1 as [[|top rest]|e]; simpl;
    [by rewrite app_nil_r| |by rewrite app_nil_r].
  destruct (entails env top); [done|by rewrite app_nil_r].
Qed.

Lemma replay_pairs_app l1 l2 w :
  replay_pairs env (l1 ++ l2) w
  = ((replay_pairs env l1 w).1
     ++ (replay_pairs env l2 (replay_pairs env l1 w).2).1,
     (replay_pairs env l2 (replay_pairs env l1 w).2).2).
Proof.
  revert w. induction l1 as [|[clause h] l1 IH]; intros w.
  - simpl. by destruct (replay_pairs env l2 w).
  - simpl. rewrite IH. simpl. by rewrite app_assoc.
Qed.

(** The inner loop does what the classifier's answers dictate. *)
Lemma hypotheses_replay clause hs flagged st :
  ∃ st',
    for_each hs (λ h acc, check_pair env clause h acc) flagged st
    = (Returns
         (flagged
          ++ (replay_pairs env (map (λ h, (clause, h)) hs) (world st)).1), st')
    ∧ world st'
      = (replay_pairs env (map (λ h, (clause, h)) hs) (world st)).2.
Proof.
  revert flagged st. induction hs as [|h hs IH]; intros flagged st.
  - exists st. simpl. by rewrite app_nil_r.
  - simpl. unfold mbind, M_bind at 1. rewrite check_pair_reply.
    destruct (IH (flagged
                  ++ if answer_entails env (run_nli env clause h (world st)).1
                     then [finding h clause] else [])
                 (set_world (run_nli env clause h (world st)).2
                    (log_call (CallNli clause h) st)))
      as (st' & Hrun & Hw).
    exists st'. rewrite Hrun. simpl. by rewrite <- app_assoc.
Qed.

(** So does the outer loop. *)
Lemma clauses_replay clauses flagged st :
  ∃ st',
    for_each clauses
      (λ clause acc,
         for_each hypotheses (λ h acc, check_pair env clause h acc) acc)
      flagged st
    = (Returns (flagged ++ (replay_pairs env (scan_pairs clauses) (world st)).1),
       st')
    ∧ world st' = (replay_pairs env (scan_pairs clauses) (world st)).2.
Proof.
  revert flagged st. induction clauses as [|c cs IH]; intros flagged st.
  - exists st. simpl. by rewrite app_nil_r.
  - destruct (hypotheses_replay c hypotheses flagged st) as (st1 & H1 & Hw1).
    destruct (IH (flagged
                  ++ (replay_pairs env (map (λ h, (c, h)) hypotheses)
                        (world st)).1) st1) as (st' & H2 & Hw2).
    exists st'. cbn [for_each]. unfold mbind, M_bind at 1.
    rewrite H1, H2. unfold scan_pairs. rewrite bind_cons.
    fold (scan_pairs cs). rewrite replay_pairs_app. simpl.
    rewrite Hw2, Hw1. by rewrite <- app_assoc.
Qed.

Lemma scan_replay clauses st :
  ∃ st',
    scan env clauses st
    = (Returns (replay_pairs env (scan_pairs clauses) (world st)).1, st').
Proof.
  destruct (clauses_replay clauses [] st) as (st' & Hrun & _). by exists st'.
Qed.

(** A finding is called for exactly when some pair of the scan, put to the
    classifier after the pairs before it, gets an entailing answer. *)
Lemma replay_pairs_elem pairs w f :
  f ∈ (replay_pairs env pairs w).1
  ↔ ∃ i clause h,
      pairs !! i = Some (clause, h)
      ∧ answer_entails env
          (run_nli env clause h (replay_pairs env (take i pairs) w).2).1 = true
      ∧ f = finding h clause.
Proof.
  revert w. induction pairs as [|[c0 h0] pairs IH]; intros w.
  - simpl. split; [by intros ?%elem_of_nil|by intros (? & ? & ? & [=] & _)].
  - simpl. rewrite elem_of_app, IH. split.
    + intros [Hhere|(i & clause & h & Hi & Hent & ->)].
      * exists 0, c0, h0. simpl.
        destruct (answer_entails env (run_nli env c0 h0 w).1); [|by apply elem_of_nil in Hhere].
        by apply list_elem_of_singleton in Hhere.
      * by exists (S i), clause, h.
    + intros ([|i] & clause & h & Hi & Hent & ->); simpl in *.
      * injection Hi as <- <-. left. rewrite Hent. by apply list_elem_of_singleton.
      * right. by exists i, clause, h.
Qed.

End Flagger_replies.

(** C4: the Risk Flagger records a finding for a (clause, hypothesis) pair
    exactly when the classifier's answer for that pair is a list whose first
    entry has a label that, upper-cased, contains "ENTAIL", and a score
    above 0.6; an answer of any other kind (no entailment, an empty list, an
    exception) leaves the findings as they were.  This holds of the loop
    body, of the list built by the scan over all pairs, each put to the
    classifier after the pairs before it, and of the list
    [flag_risks_with_nli] returns; when [get_nli] raises instead of handing
    over the classifier, no pair is put to it and nothing is recorded.  The
    finding is the hypothesis, " → ", the first 200 characters of the clause
    and "...", the dots being appended whatever the length of the clause. *)
Theorem flag_risks_records_entailed_pairs {World} (env : capabilities World)
    (clauses : list str) (st : state World) (r : result unit)
    (st0 : state World) :
  get_nli env st = (r, st0) ->
  (∀ out,
     answer_entails env out = true
     ↔ ∃ top rest,
         out = Returns (top :: rest)
         ∧ (∃ pre post, py_upper env (label top) = pre ++ u "ENTAIL" ++ post)
         ∧ PrimFloat.ltb THRESHOLD (score top) = true)
  ∧ (∀ h clause,
       finding h clause
       = h ++ u " " ++ [ARROW] ++ u " " ++ take 200 clause ++ u "..."
       ∧ length (take 200 clause) = length clause `min` 200)
  ∧ (∀ clause h flagged st1,
       ∃ st2,
         check_pair env clause h flagged st1
         = (Returns
              (flagged
               ++ if answer_entails env (run_nli env clause h (world st1)).1
                  then [finding h clause] else []), st2)
         ∧ world st2 = (run_nli env clause h (world st1)).2
         ∧ calls st2 = calls st1 ++ [CallNli clause h])
  ∧ match r with
    | Returns _ =>
        ∃ flagged st',
          scan env clauses st0 = (Returns flagged, st')
          ∧ flagged = (replay_pairs env (scan_pairs clauses) (world st0)).1
          ∧ flag_risks_with_nli env clauses st = (Returns (dedupe flagged), st')
          ∧ ∀ f,
              f ∈ dedupe flagged
              ↔ ∃ i clause h,
                  scan_pairs clauses !! i = Some (clause, h)
                  ∧ answer_entails env
                      (run_nli env clause h
                         (replay_pairs env (take i (scan_pairs clauses))
                            (world st0)).2).1 = true
                  ∧ f = finding h clause
    | Raises e =>
        flag_risks_with_nli env clauses st = (Raises e, st0)
        ∧ calls st0 = calls st
    end.
Proof.
  intros Hget. split_and!.
  - apply answer_entails_spec.
  - intros h clause. split; [done|]. rewrite length_take. lia.
  - intros clause h flagged st1. rewrite check_pair_reply. by eexists.
  - destruct r as [[]|e].
    + destruct (scan_replay env clauses st0) as (st' & Hscan).
      eexists _, st'. split_and!; [exact Hscan|done| |].
      * unfold flag_risks_with_nli, mbind, M_bind at 1. rewrite Hget.
        unfold mbind, M_bind. by rewrite Hscan.
      * intros f.
        destruct (dedupe_spec
                    (replay_pairs env (scan_pairs clauses) (world st0)).1)
          as (_ & Hel & _).
        rewrite Hel. apply replay_pairs_elem.
    + split; [|by eapply get_nli_calls].
      unfold flag_risks_with_nli, mbind, M_bind at 1. by rewrite Hget.
Qed.

Lemma flag_risks_records_entailed_pairs_witness :
  ∃ st',
    flag_risks_with_nli Demo.env [Demo.clause_b; Demo.clause_a; Demo.clause_a]
      Demo.start
    = (Returns [finding (u "This clause allows termination without notice.")
                  Demo.clause_a], st').
Proof.
  destruct (flag_risks_records_entailed_pairs Demo.env
              [Demo.clause_b; Demo.clause_a; Demo.clause_a] Demo.start
              (Returns ()) _ eq_refl)
    as (_ & _ & _ & flagged & st' & _ & -> & Hrun & _).
  exists st'. rewrite Hrun. f_equal.
Defined.

(** C6, as amended: whatever the classifier does on the pairs, raising
    included, [flag_risks_with_nli] returns a finding list once [get_nli]
    has handed over the classifier: every pair of the scan is put to the
    classifier, failures are passed over, and the scan's findings come back
    deduplicated.  The lazy construction of the classifier in [get_nli] is
    outside the [try]: when it raises, so does [flag_risks_with_nli]. *)
Theorem flag_risks_returns_once_loaded {World} (env : capabilities World)
    (clauses : list str) (st : state World) :
  match get_nli env st with
  | (Returns _, st0) =>
      ∃ flagged st',
        scan env clauses st0 = (Returns flagged, st')
        ∧ flag_risks_with_nli env clauses st = (Returns (dedupe flagged), st')
        ∧ calls st' = calls st ++ scan_calls clauses
  | (Raises e, st0) => flag_risks_with_nli env clauses st = (Raises e, st0)
  end.
Proof.
  unfold flag_risks_with_nli, mbind, M_bind at 1 3.
  destruct (get_nli env st) as [[[]|e] st0] eqn:Hget; [|done].
  destruct (scan_total env clauses st0) as (flagged & st' & Hscan & Hcalls & _).
  exists flagged, st'. unfold mbind, M_bind. rewrite Hscan.
  split_and!; [done..|]. by rewrite Hcalls, (get_nli_calls env _ _ _ Hget).
Qed.

(** C6, as stated, fails: on a host where the classification model cannot
    be constructed, [flag_risks_with_nli] raises, even for an empty clause
    list. *)
Lemma flag_risks_raises_when_model_unavailable :
  flag_risks_with_nli Demo.offline_env [] Demo.start
  = (Raises (Failure 1), Demo.start).
Proof. reflexivity. Qed.

(** C3: the list returned by [flag_risks_with_nli] is the list built by the
    clause-by-hypothesis scan (a subsequence of the candidate findings in
    scan order) with later repetitions removed: it has no duplicates, the
    same entries as the scan's list, and lists them in the order in which
    they first occur there. *)
Theorem flag_risks_deduplicated {World} (env : capabilities World)
    (clauses : list str) (st : state World) (r : list str) (st' : state World) :
  flag_risks_with_nli env clauses st = (Returns r, st') ->
  ∃ flagged st0,
    scan env clauses st0 = (Returns flagged, st')
    ∧ flagged `sublist_of` scan_findings clauses
    ∧ r = dedupe flagged
    ∧ NoDup r
    ∧ (∀ f, f ∈ r ↔ f ∈ flagged)
    ∧ first_occurrence_order r flagged.
Proof.
  intros Hrun. unfold flag_risks_with_nli, mbind, M_bind at 1 in Hrun.
  destruct (get_nli env st) as [[[]|e] st0] eqn:Hget; [|done].
  destruct (scan_total env clauses st0) as (flagged & st1 & Hscan & _ & Hsub).
  unfold mbind, M_bind in Hrun. rewrite Hscan in Hrun.
  injection Hrun as <- <-. exists flagged, st0.
  destruct (dedupe_spec flagged) as (Hnd & Hel & Hord). by split_and!.
Qed.

Lemma flag_risks_deduplicated_witness :
  ∃ r st',
    flag_risks_with_nli Demo.env [Demo.clause_a; Demo.clause_b; Demo.clause_a]
      Demo.start = (Returns r, st')
    ∧ NoDup r
    ∧ length (calls st') = 12.
Proof.
  assert (∃ r st',
            flag_risks_with_nli Demo.env
              [Demo.clause_a; Demo.clause_b; Demo.clause_a] Demo.start
            = (Returns r, st') ∧ length (calls st') = 12)
    as (r & st' & Hrun & Hcalls) by (by eexists _, _; vm_compute).
  destruct (flag_risks_deduplicated Demo.env _ _ r st' Hrun)
    as (flagged & st0 & _ & _ & _ & Hnd & _).
  by exists r, st'.
Defined.

(** ** Uploads *)

Section Upload.
Context {World : Type} (env : capabilities World).

Lemma endswith_spec s suffix :
  endswith s suffix = true ↔ ∃ pre, s = pre ++ suffix.
Proof.
  unfold endswith. rewrite is_prefix_spec. split.
  - intros [post Hrev]. exists (reverse post).
    apply (inj reverse). by rewrite reverse_app, reverse_involutive.
  - intros [pre ->]. exists (reverse pre). by rewrite reverse_app.
Qed.

Lemma fresh_tmp_unused (st : state World) :
  files st !! fresh (dom (files st)) = None.
Proof. apply not_elem_of_dom, is_fresh. Qed.

(** The PDF branch, step by step: the file is created, filled, read by the
    extractor and unlinked; the disk ends as it began. *)
Lemma pdf_branch_run data (st : state World) :
  let tmp := fresh (dom (files st)) in
  let out := run_pdf_extract env data (world st) in
  (tmp ← NamedTemporaryFile;
   try_finally (tmp_write_close tmp data;; pdf_extract_text env tmp)
               (os_unlink tmp)) st
  = (out.1,
     {| world := out.2; _summarizer := _summarizer st;
        _nli_classifier := _nli_classifier st;
        files := files st; calls := calls st ++ [CallPdfExtract tmp] |}).
Proof.
  intros tmp out. pose proof (fresh_tmp_unused st) as Hfresh. fold tmp in Hfresh.
  unfold mbind, M_bind at 1. unfold NamedTemporaryFile at 1. fold tmp.
  unfold try_finally, mbind, M_bind, tmp_write_close, pdf_extract_text,
    os_unlink, invoke, set_files, set_world, log_call. cbn [files world calls
    _summarizer _nli_classifier].
  rewrite lookup_insert_eq. cbn [files world calls _summarizer _nli_classifier].
  rewrite lookup_insert_eq. cbn [app].
  fold out. destruct out as [r w]. cbn [files world calls _summarizer
    _nli_classifier fst snd].
  rewrite lookup_insert_eq, insert_insert_eq, delete_insert_id by done.
  done.
Qed.

(** Every upload that takes the PDF branch. *)
Lemma pdf_upload_run (upload : UploadFile) (st : state World) :
  endswith (py_lower env (default [] (filename upload))) PDF_SUFFIX = true ->
  let tmp := fresh (dom (files st)) in
  let out := run_pdf_extract env (contents upload) (world st) in
  extract_text_from_upload env upload st
  = (out.1,
     {| world := out.2; _summarizer := _summarizer st;
        _nli_classifier := _nli_classifier st;
        files := files st; calls := calls st ++ [CallPdfExtract tmp] |}).
Proof.
  intros Hpdf. unfold extract_text_from_upload. cbv zeta. rewrite Hpdf.
  apply pdf_branch_run.
Qed.

End Upload.

Lemma ascii_lower_keeps_pdf_suffix s :
  endswith s PDF_SUFFIX = true -> endswith (Demo.ascii_lower s) PDF_SUFFIX = true.
Proof.
  rewrite !endswith_spec. intros [pre ->]. exists (Demo.ascii_lower pre).
  unfold Demo.ascii_lower. by rewrite map_app.
Qed.

(** C8: for an upload whose file name ends in ".pdf" (lower-casing keeps
    such an ending), the bytes go to a temporary file under an unused name,
    the PDF extractor reads exactly those bytes from it, and on both exits
    the file is gone again and the disk is as before; the outcome of
    [extract_text_from_upload] is the extractor's: its text when it returns,
    its exception when it raises. *)
Theorem pdf_upload_cleanup {World} (env : capabilities World)
    (upload : UploadFile) (name : str) (st : state World) :
  (∀ s, endswith s PDF_SUFFIX = true ->
        endswith (py_lower env s) PDF_SUFFIX = true) ->
  filename upload = Some name ->
  endswith name PDF_SUFFIX = true ->
  let tmp := fresh (dom (files st)) in
  let out := run_pdf_extract env (contents upload) (world st) in
  ∃ st',
    extract_text_from_upload env upload st = (out.1, st')
    ∧ files st !! tmp = None
    ∧ files st' !! tmp = None
    ∧ files st' = files st
    ∧ calls st' = calls st ++ [CallPdfExtract tmp]
    ∧ (∀ e, out.1 = Raises e ->
            extract_text_from_upload env upload st = (Raises e, st')).
Proof.
  intros Hlower Hname Hpdf tmp out.
  rewrite pdf_upload_run by (rewrite Hname; by apply Hlower).
  fold tmp out. eexists. split; [done|]. cbn [files calls].
  pose proof (fresh_tmp_unused st) as Hfresh. fold tmp in Hfresh.
  split_and!; try done. by intros e ->.
Qed.

Lemma pdf_upload_cleanup_witness :
  (∃ st',
     extract_text_from_upload Demo.env
       {| filename := Some (u "lease.pdf"); contents := [Byte.x25; Byte.x50] |}
       Demo.start = (Returns [37%N; 80%N], st')
     ∧ files st' = ∅)
  ∧ (∃ st',
       extract_text_from_upload Demo.env
         {| filename := Some (u "lease.pdf"); contents := [] |}
         Demo.start = (Raises (Failure 3), st')
       ∧ files st' = ∅).
Proof.
  split.
  - destruct (pdf_upload_cleanup Demo.env
                {| filename := Some (u "lease.pdf");
                   contents := [Byte.x25; Byte.x50] |}
                (u "lease.pdf") Demo.start ascii_lower_keeps_pdf_suffix
                eq_refl eq_refl) as (st' & Hrun & _ & _ & Hfiles & _).
    by exists st'.
  - destruct (pdf_upload_cleanup Demo.env
                {| filename := Some (u "lease.pdf"); contents := [] |}
                (u "lease.pdf") Demo.start ascii_lower_keeps_pdf_suffix
                eq_refl eq_refl) as (st' & Hrun & _ & _ & Hfiles & _).
    by exists st'.
Defined.

(** C7, as amended: for an upload whose lower-cased file name does not end
    in ".pdf" (a missing name counts as empty), text extraction returns for
    every byte content and touches neither the disk nor any capability: the
    result is the UTF-8 decoding of the bytes when they are well-formed
    UTF-8 and their latin-1 decoding, one code point per byte, otherwise. *)
Theorem text_upload_decodes {World} (env : capabilities World)
    (upload : UploadFile) (st : state World) :
  endswith (py_lower env (default [] (filename upload))) PDF_SUFFIX = false ->
  extract_text_from_upload env upload st
  = (Returns match decode_utf8 (contents upload) with
             | Some s => s
             | None => decode_latin1 (contents upload)
             end, st)
  ∧ length (decode_latin1 (contents upload)) = length (contents upload).
Proof.
  intros Htxt. unfold extract_text_from_upload. cbv zeta. rewrite Htxt.
  split; [|apply length_map]. unfold try_except.
  by destruct (decode_utf8 (contents upload)).
Qed.

Lemma text_upload_decodes_witness :
  extract_text_from_upload Demo.env
    {| filename := Some (u "notes.txt"); contents := [Byte.x61; Byte.xff] |}
    Demo.start
  = (Returns [97%N; 255%N], Demo.start)
  ∧ extract_text_from_upload Demo.env
      {| filename := None; contents := [Byte.xc3; Byte.xa9] |}
      Demo.start
    = (Returns [233%N], Demo.start).
Proof.
  split.
  - exact (proj1 (text_upload_decodes Demo.env
                    {| filename := Some (u "notes.txt");
                       contents := [Byte.x61; Byte.xff] |}
                    Demo.start eq_refl)).
  - exact (proj1 (text_upload_decodes Demo.env
                    {| filename := None;
                       contents := [Byte.xc3; Byte.xa9] |}
                    Demo.start eq_refl)).
Defined.

(** C7, as stated, fails: "SCAN.PDF" does not end in ".pdf", yet the file
    name is lower-cased before the test, the upload takes the PDF branch and
    the extractor's exception reaches the caller. *)
Lemma upper_case_pdf_name_raises :
  endswith (u "SCAN.PDF") PDF_SUFFIX = false
  ∧ ∃ st',
      extract_text_from_upload Demo.env
        {| filename := Some (u "SCAN.PDF"); contents := [] |} Demo.start
      = (Raises (Failure 3), st').
Proof. split; [done|]. by eexists. Qed.

(** C5: with neither text nor file, [analyze_document] returns the empty
    result and leaves the state as it found it: no model handle is
    constructed, no file is written, no capability is called. *)
Theorem analyze_document_nothing_supplied {World} (env : capabilities World)
    (st : state World) :
  analyze_document env None None st
  = (Returns {| summary := []; clauses := []; flagged_risks := [] |}, st).
Proof. reflexivity. Qed.

(** C10: the empty string as text, with no file, is as good as no text: the
    presence test is a truth test, so the request gets the empty result of a
    request without input and the state is left as it was. *)
Theorem analyze_document_empty_text {World} (env : capabilities World)
    (st : state World) :
  analyze_document env (Some []) None st
  = (Returns {| summary := []; clauses := []; flagged_risks := [] |}, st)
  ∧ analyze_document env (Some []) None st = analyze_document env None None st.
Proof. split; reflexivity. Qed.

(** ** Runs on the test doubles *)

Section Runs.

Example normalize_breaks_run :
  normalize_breaks (u "a" ++ [NL; NL; NL; NL] ++ u "b" ++ [NL] ++ u "c")
  = u "a" ++ [NL; NL] ++ u "b" ++ [NL] ++ u "c".
Proof. reflexivity. Qed.

(** A "blank" line may hold spaces; a single newline does not split. *)
Example paragraphs_run :
  paragraphs (u " a" ++ [NL; SP; NL] ++ u "b" ++ [NL] ++ u "c " ++ [NL; NL])
  = [u "a"; u "b" ++ [NL] ++ u "c"].
Proof. reflexivity. Qed.

Example extract_clauses_run :
  extract_clauses Demo.two_paragraphs default_max_clauses
  = [Demo.clause_a; Demo.clause_b].
Proof. by vm_compute. Qed.

(** The limit is honoured from one on. *)
Example extract_clauses_limit_run :
  extract_clauses Demo.two_paragraphs 1 = [Demo.clause_a].
Proof. by vm_compute. Qed.

Example dedupe_run :
  dedupe [u "x"; u "y"; u "x"; u "z"; u "y"] = [u "x"; u "y"; u "z"].
Proof. by vm_compute. Qed.

Example decode_utf8_run :
  decode_utf8 [Byte.xe2; Byte.x86; Byte.x92] = Some [ARROW]
  ∧ decode_utf8 [Byte.xc0; Byte.x80] = None
  ∧ decode_latin1 [Byte.xc0; Byte.x80] = [192%N; 128%N].
Proof. by vm_compute. Qed.

(** Two thousand words: three chunk calls and one reduce call. *)
Example summarize_2000_words_run :
  let text := mjoin (replicate 2000 [119%N; SP]) in
  map (λ c, match c with
            | CallSummarizer t mx mn tr => (length (split t), mx, mn, tr)
            | _ => (0, 0%Z, 0%Z, false)
            end)
      (calls (summarize_text Demo.env text 200 Demo.start).2)
  = [(700, 120%Z, 30%Z, true); (700, 120%Z, 30%Z, true);
     (600, 120%Z, 30%Z, true); (12, 200%Z, 50%Z, true)].
Proof. by vm_compute. Qed.

(** A clause on which the classifier raises is passed over; the scan goes
    on to the next clause. *)
Example flag_risks_skips_failures_run :
  (flag_risks_with_nli Demo.env
     [u "This garbled clause makes the classifier raise an exception.";
      Demo.clause_a] Demo.start).1
  = Returns [finding (u "This clause allows termination without notice.")
               Demo.clause_a].
Proof. by vm_compute. Qed.

Example analyze_document_run :
  (analyze_document Demo.env (Some Demo.two_paragraphs) None Demo.start).1
  = Returns {|
      summary := u "Term: Th";
      clauses := [Demo.clause_a; Demo.clause_b];
      flagged_risks :=
        [finding (u "This clause allows termination without notice.")
           Demo.clause_a] |}.
Proof. by vm_compute. Qed.

End Runs.

(** * Further properties of the code *)

Section Runs_of_characters.

Lemma run_length_app_all p (a b : str) :
  Forall (λ c, p c = true) a -> run_length p (a ++ b) = length a + run_length p b.
Proof. induction 1 as [|c a Hc _ IH]; simpl; [done|]. by rewrite Hc, IH. Qed.

Lemma run_length_app_stop p (a b : str) :
  run_length p b = 0 -> run_length p (a ++ b) = run_length p a.
Proof.
  intros Hb. induction a as [|c a IH]; simpl; [done|].
  destruct (p c); by rewrite ?IH.
Qed.

Lemma run_length_all p (s : str) :
  Forall (λ c, p c = true) (take (run_length p s) s).
Proof.
  induction s as [|c s IH]; simpl; [constructor|].
  destruct (p c) eqn:Hc; simpl; by constructor.
Qed.

Lemma is_nl_space c : is_nl c = true -> is_space c = true.
Proof. by intros ->%is_nl_true. Qed.

Lemma run_length_nl_space s : run_length is_space s = 0 -> run_length is_nl s = 0.
Proof.
  destruct s as [|c s]; simpl; [done|].
  destruct (is_nl c) eqn:Hc; [|done]. by rewrite (is_nl_space _ Hc).
Qed.

(** Every string is a run of whitespace followed by a rest that does not
    start with whitespace. *)
Lemma whitespace_prefix s :
  ∃ W t, s = W ++ t ∧ Forall (λ c, is_space c = true) W
         ∧ run_length is_space t = 0.
Proof.
  exists (take (run_length is_space s) s), (drop (run_length is_space s) s).
  split_and!; [by rewrite take_drop|apply run_length_all|apply run_length_drop].
Qed.

(** A string either has no newline or splits at its last one. *)
Lemma last_newline (W : str) :
  Forall (λ c, is_nl c = false) W
  ∨ ∃ Y W2, W = Y ++ NL :: W2 ∧ Forall (λ c, is_nl c = false) W2.
Proof.
  induction W as [|c W [IH|(Y & W2 & -> & HW2)]].
  - left. constructor.
  - destruct (is_nl c) eqn:Hc.
    + right. exists [], W. by rewrite (is_nl_true _ Hc).
    + left. by constructor.
  - right. by exists (c :: Y), W2.
Qed.

Lemma last_index_none p (s : str) :
  Forall (λ c, p c = false) s -> last_index p s = None.
Proof. induction 1 as [|c s Hc _ IH]; simpl; [done|]. by rewrite IH, Hc. Qed.

Lemma last_index_at p (Y W2 : str) c :
  p c = true -> Forall (λ c, p c = false) W2 ->
  last_index p (Y ++ c :: W2) = Some (length Y).
Proof.
  intros Hc HW2. induction Y as [|y Y IH]; simpl.
  - by rewrite (last_index_none _ _ HW2), Hc.
  - by rewrite IH.
Qed.

End Runs_of_characters.

Section Blank_lines.

(** With no newline in the whitespace after it, a newline starts no match. *)
Lemma match_blank_line_none W t :
  Forall (λ c, is_space c = true) W -> Forall (λ c, is_nl c = false) W ->
  run_length is_space t = 0 ->
  match_blank_line (NL :: W ++ t) = None.
Proof.
  intros Hsp Hnl Ht. unfold match_blank_line. simpl.
  rewrite run_length_app_all, Ht, Nat.add_0_r, take_app_length by done.
  by rewrite last_index_none.
Qed.

(** Otherwise the match runs up to the last newline of that whitespace. *)
Lemma match_blank_line_some Y W2 t :
  Forall (λ c, is_space c = true) Y ->
  Forall (λ c, is_space c = true) W2 -> Forall (λ c, is_nl c = false) W2 ->
  run_length is_space t = 0 ->
  match_blank_line (NL :: (Y ++ NL :: W2) ++ t) = Some (S (S (length Y))).
Proof.
  intros HY Hsp Hnl Ht. unfold match_blank_line. simpl.
  rewrite run_length_app_all, Ht, Nat.add_0_r, take_app_length.
  - by rewrite last_index_at.
  - apply Forall_app. split; [done|]. by constructor.
Qed.

Lemma match_blank_line_other c s :
  is_nl c = false -> match_blank_line (c :: s) = None.
Proof. intros Hc. unfold match_blank_line. by rewrite Hc. Qed.

Lemma re_split_from_skip m k acc s :
  re_split_from m k acc s = re_split_from m 0 acc (drop k s).
Proof. revert k. induction s as [|c s IH]; intros [|k]; simpl; done. Qed.

End Blank_lines.

Section Normalisation_structure.

Lemma normalize_nil : normalize_breaks [] = [].
Proof. done. Qed.

(** An induction principle following the three shapes of a subject. *)
Lemma normalize_ind (P : str -> str -> Prop) :
  P [] [] ->
  (∀ c rest, is_nl c = false -> P rest (normalize_breaks rest) ->
             P (c :: rest) (c :: normalize_breaks rest)) ->
  (∀ rest, run_length is_nl rest = 0 -> P rest (normalize_breaks rest) ->
           P (NL :: rest) (NL :: normalize_breaks rest)) ->
  (∀ rest n, run_length is_nl rest = S n ->
             P (drop (S n) rest) (normalize_breaks (drop (S n) rest)) ->
             P (NL :: rest) (NL :: NL :: normalize_breaks (drop (S n) rest))) ->
  ∀ s, P s (normalize_breaks s).
Proof.
  intros Hnil Hother Hsingle Hrun s.
  remember (length s) as n eqn:Hn. revert s Hn.
  induction n as [n IH] using lt_wf_ind. intros s Hn.
  destruct s as [|c rest]; [done|]. simpl in Hn.
  destruct (is_nl c) eqn:Hc.
  - rewrite (is_nl_true _ Hc).
    destruct (run_length is_nl rest) as [|k] eqn:Hk.
    + rewrite normalize_single by done. apply Hsingle; [done|].
      apply (IH (length rest)); [lia|done].
    + rewrite (normalize_run _ _ k) by done. apply Hrun; [done|].
      apply (IH (length (drop (S k) rest))); [|done].
      rewrite length_drop. lia.
  - rewrite normalize_other by done. apply Hother; [done|].
    apply (IH (length rest)); [lia|done].
Qed.

Lemma normalize_app a b :
  run_length is_nl b = 0 ->
  normalize_breaks (a ++ b) = normalize_breaks a ++ normalize_breaks b.
Proof.
  intros Hb. pattern a, (normalize_breaks a). apply normalize_ind.
  - done.
  - intros c rest Hc IH. simpl. by rewrite normalize_other, IH.
  - intros rest Hrun IH. simpl. rewrite normalize_single, IH; [done..|].
    by rewrite run_length_app_stop.
  - intros rest n Hrun IH. simpl.
    rewrite (normalize_run _ _ n); [|done|by rewrite run_length_app_stop].
    rewrite drop_app_le, IH; [done|].
    pose proof (run_length_le is_nl rest). lia.
Qed.

Lemma normalize_no_newline W t :
  Forall (λ c, is_nl c = false) W ->
  normalize_breaks (W ++ t) = W ++ normalize_breaks t.
Proof.
  induction 1 as [|c W Hc _ IH]; simpl; [done|].
  by rewrite normalize_other, IH.
Qed.

Lemma normalize_elem x s : x ∈ normalize_breaks s -> x ∈ s.
Proof.
  pattern s, (normalize_breaks s). apply normalize_ind.
  - done.
  - intros c rest _ IH [->|Hx]%elem_of_cons; [left|right; auto].
  - intros rest _ IH [->|Hx]%elem_of_cons; [left|right; auto].
  - intros rest n _ IH [->|[->|Hx]%elem_of_cons]%elem_of_cons; [left|left|].
    right. eapply elem_of_sublist; [by apply IH|apply sublist_drop].
Qed.

Lemma normalize_nil_inv s : normalize_breaks s = [] -> s = [].
Proof. pattern s, (normalize_breaks s). by apply normalize_ind. Qed.

Lemma run_length_full p (s : str) n :
  run_length p s = n -> drop n s = [] -> Forall (λ c, p c = true) s.
Proof.
  intros <- Hdrop. rewrite <- (take_drop (run_length p s) s), Hdrop, app_nil_r.
  apply run_length_all.
Qed.

Lemma normalize_last s : last (normalize_breaks s) = last s.
Proof.
  pattern s, (normalize_breaks s). apply normalize_ind.
  - done.
  - intros c rest _ IH. rewrite !last_cons, IH. done.
  - intros rest _ IH. rewrite !last_cons, IH. done.
  - intros rest n Hrun IH. rewrite !last_cons, IH.
    destruct (drop (S n) rest) as [|d t] eqn:Hd.
    + simpl. pose proof (run_length_full _ _ _ Hrun Hd) as Hall.
      destruct (last rest) as [x|] eqn:Hlast; [|done].
      apply last_Some in Hlast as [l' ->].
      apply Forall_app in Hall as [_ Hx%Forall_inv].
      by rewrite (is_nl_true _ Hx).
    + assert (last rest = last (d :: t)) as ->.
      { rewrite <- (take_drop (S n) rest), Hd, last_app.
        destruct (last (d :: t)) eqn:Hl; [done|]. by apply last_None in Hl. }
      by destruct (last (d :: t)).
Qed.

Lemma normalize_head_space t :
  run_length is_space t = 0 -> run_length is_space (normalize_breaks t) = 0.
Proof.
  destruct t as [|c t]; [done|]. simpl.
  destruct (is_space c) eqn:Hc; [done|]. intros _.
  rewrite normalize_other.
  - simpl. by rewrite Hc.
  - destruct (is_nl c) eqn:Hnl; [|done]. by rewrite (is_nl_space _ Hnl) in Hc.
Qed.

(** A block of whitespace between two newlines stays such a block. *)
Lemma normalize_block Y :
  Forall (λ c, is_space c = true) Y ->
  ∃ Y', normalize_breaks (NL :: Y ++ [NL]) = NL :: Y' ++ [NL]
        ∧ Forall (λ c, is_space c = true) Y'.
Proof.
  intros HY.
  assert (Hall : Forall (λ c, is_space c = true) (normalize_breaks (NL :: Y ++ [NL]))).
  { apply List.Forall_forall. intros x Hx%list_elem_of_In%normalize_elem.
    apply elem_of_cons in Hx as [->|Hx]; [done|].
    apply elem_of_app in Hx as [Hx|Hx%list_elem_of_singleton]; [|by subst].
    rewrite List.Forall_forall in HY. by apply HY, list_elem_of_In. }
  pose proof (normalize_last (NL :: Y ++ [NL])) as Hlast.
  rewrite last_cons, last_snoc in Hlast.
  destruct (run_length is_nl (Y ++ [NL])) as [|n] eqn:Hrun.
  - rewrite normalize_single in * by done. rewrite last_cons in Hlast.
    destruct (last (normalize_breaks (Y ++ [NL]))) as [x|] eqn:Hl.
    + injection Hlast as ->. apply last_Some in Hl as [Y' HY'].
      exists Y'. rewrite HY' in *. split; [done|].
      apply Forall_cons in Hall as [_ Hall]. by apply Forall_app in Hall as [? _].
    + apply last_None, normalize_nil_inv in Hl. by destruct Y.
  - rewrite (normalize_run _ _ n) in * by done. rewrite !last_cons in Hlast.
    destruct (last (normalize_breaks (drop (S n) (Y ++ [NL])))) as [x|] eqn:Hl.
    + injection Hlast as ->. apply last_Some in Hl as [Y' HY'].
      exists (NL :: Y'). rewrite HY' in *. split; [done|].
      apply Forall_cons in Hall as [_ Hall]. constructor; [done|].
      apply Forall_cons in Hall as [_ Hall]. by apply Forall_app in Hall as [? _].
    + apply last_None in Hl. rewrite Hl. exists []. split; [done|constructor].
Qed.

End Normalisation_structure.

Section Redundancy.

Lemma run_length_no_newline W t :
  Forall (λ c, is_nl c = false) W -> run_length is_nl t = 0 ->
  run_length is_nl (W ++ t) = 0.
Proof. intros [|c W' Hc _] Ht; simpl; [done|]. by rewrite Hc. Qed.

Lemma drop_block {A} (Y W2 t : list A) c :
  drop (S (length Y)) ((Y ++ c :: W2) ++ t) = W2 ++ t.
Proof. induction Y as [|y Y IH]; simpl; [done|]. apply IH. Qed.

Lemma re_split_step_other m c acc s :
  m (c :: s) = None ->
  re_split_from m 0 acc (c :: s) = re_split_from m 0 (acc ++ [c]) s.
Proof. intros Hm. simpl. by rewrite Hm. Qed.

Lemma re_split_step_match m c acc s n :
  m (c :: s) = Some (S n) ->
  re_split_from m 0 acc (c :: s) = acc :: re_split_from m 0 [] (drop n s).
Proof. intros Hm. simpl. by rewrite Hm, re_split_from_skip. Qed.

(** Splitting on blank lines does not see the newline normalisation. *)
Lemma re_split_normalized acc s :
  re_split_from match_blank_line 0 acc (normalize_breaks s)
  = re_split_from match_blank_line 0 acc s.
Proof.
  remember (length s) as n eqn:Hn. revert s acc Hn.
  induction n as [n IH] using lt_wf_ind. intros s acc Hn.
  destruct s as [|c rest]; [done|]. simpl in Hn.
  destruct (is_nl c) eqn:Hc.
  - apply is_nl_true in Hc as ->.
    destruct (whitespace_prefix rest) as (W & t & -> & HW & Ht).
    pose proof (normalize_head_space _ Ht) as Ht'.
    pose proof (run_length_nl_space _ Ht) as Htnl.
    destruct (last_newline W) as [Hnl|(Y & W2 & -> & HW2)].
    + assert (Hnorm : normalize_breaks (NL :: W ++ t)
                      = NL :: W ++ normalize_breaks t).
      { change (NL :: W ++ t) with ([NL] ++ W ++ t).
        rewrite normalize_app by by apply run_length_no_newline.
        by rewrite normalize_no_newline. }
      rewrite Hnorm.
      rewrite !re_split_step_other by by apply match_blank_line_none.
      rewrite <- normalize_no_newline by done.
      apply (IH (length (W ++ t))); [lia|done].
    + apply Forall_app in HW as [HY HW2sp].
      apply Forall_cons in HW2sp as [_ HW2sp].
      destruct (normalize_block Y HY) as (Y' & HY' & HY'sp).
      assert (Hnorm : normalize_breaks (NL :: (Y ++ NL :: W2) ++ t)
                      = NL :: (Y' ++ NL :: W2) ++ normalize_breaks t).
      { replace (NL :: (Y ++ NL :: W2) ++ t)
          with ((NL :: Y ++ [NL]) ++ W2 ++ t)
          by (simpl; by rewrite <- !app_assoc).
        rewrite normalize_app by by apply run_length_no_newline.
        rewrite HY', normalize_no_newline by done.
        simpl. by rewrite <- !app_assoc. }
      rewrite Hnorm.
      rewrite (re_split_step_match _ _ _ _ (S (length Y')))
        by by apply match_blank_line_some.
      rewrite (re_split_step_match _ _ _ _ (S (length Y)))
        by by apply match_blank_line_some.
      f_equal.
      rewrite !drop_block, <- normalize_no_newline by done.
      apply (IH (length (W2 ++ t))); [|done].
      rewrite !length_app in *. simpl in *. lia.
  - rewrite normalize_other by done.
    rewrite !re_split_step_other by by apply match_blank_line_other.
    apply (IH (length rest)); [lia|done].
Qed.

End Redundancy.

Section Pieces.

(** Pieces of a split are cut out of the subject. *)
Lemma re_split_from_substring m s k acc p :
  p ∈ re_split_from m k acc s ->
  (∃ x rest, drop k s = x ++ rest ∧ p = acc ++ x) ∨ substring p s.
Proof.
  revert k acc. induction s as [|c s IH]; intros k acc Hp.
  - simpl in Hp. apply list_elem_of_singleton in Hp as ->.
    left. exists [], []. split; [by rewrite drop_nil|by rewrite app_nil_r].
  - destruct k as [|k]; simpl in Hp.
    + destruct (m (c :: s)) as [[|n]|] eqn:Hm.
      2:{ apply elem_of_cons in Hp as [->|Hp].
          - left. exists [], (c :: s). by rewrite app_nil_r.
          - right. apply IH in Hp as [(x & rest & Hx & ->)|(a & b & ->)].
            + exists (c :: take n s), rest. simpl.
              by rewrite <- Hx, take_drop.
            + by exists (c :: a), b. }
      all: apply IH in Hp as [(x & rest & Hx & ->)|(a & b & ->)];
        [left; exists (c :: x), rest; rewrite drop_0 in *;
         split; [by rewrite Hx|by rewrite <- app_assoc]
        |right; by exists (c :: a), b].
    + apply IH in Hp as [(x & rest & Hx & ->)|(a & b & ->)].
      * left. by exists x, rest.
      * right. by exists (c :: a), b.
Qed.

Lemma re_split_substring m s p : p ∈ re_split m s -> substring p s.
Proof.
  intros [(x & rest & Hx & ->)|Hsub]%re_split_from_substring; [|done].
  rewrite drop_0 in Hx. by exists [], rest.
Qed.

Lemma strip_substring s : substring (strip s) s.
Proof.
  unfold strip, rstrip.
  destruct (lstrip_suffix s) as [a Ha].
  destruct (lstrip_suffix (reverse (lstrip s))) as [b Hb].
  exists a, (reverse b). rewrite Ha at 1. f_equal.
  apply (inj reverse). by rewrite reverse_app, !reverse_involutive.
Qed.

Lemma substring_trans a b c : substring a b -> substring b c -> substring a c.
Proof.
  intros (x & y & ->) (x' & y' & ->). exists (x' ++ x), (y ++ y').
  by rewrite <- !app_assoc.
Qed.

Lemma has_blank_line_substring a b :
  substring a b -> has_blank_line a -> has_blank_line b.
Proof.
  intros (x & y & ->) (pre & mid & post & -> & Hmid).
  exists (x ++ pre), mid, (post ++ y). split; [|done].
  rewrite <- !app_assoc. simpl. by rewrite <- !app_assoc.
Qed.

(** Two newlines with whitespace between them always match. *)
Lemma match_blank_line_blank mid x :
  Forall (λ c, is_space c = true) mid ->
  is_Some (match_blank_line (NL :: mid ++ NL :: x)).
Proof.
  intros Hmid. destruct (whitespace_prefix x) as (W & t & -> & HW & Ht).
  assert (Hsp : Forall (λ c, is_space c = true) (mid ++ NL :: W)).
  { apply Forall_app. split; [done|]. by constructor. }
  destruct (last_newline (mid ++ NL :: W)) as [Hno|(Y & W2 & Heq & HW2)].
  - apply Forall_app in Hno as [_ Hno]. by apply Forall_inv in Hno.
  - replace (NL :: mid ++ NL :: W ++ t) with (NL :: (mid ++ NL :: W) ++ t)
      by by rewrite <- app_assoc.
    rewrite Heq in *. apply Forall_app in Hsp as [HY HW2sp].
    apply Forall_cons in HW2sp as [_ HW2sp].
    by rewrite match_blank_line_some.
Qed.


Lemma unmatched_no_blank_line acc s : unmatched acc s -> ¬ has_blank_line acc.
Proof.
  intros Hun (pre & mid & post & -> & Hmid).
  specialize (Hun pre (mid ++ NL :: post) eq_refl).
  destruct (match_blank_line_blank mid (post ++ s) Hmid) as [n Hn].
  rewrite <- app_assoc, <- app_comm_cons in Hun. congruence.
Qed.

Lemma unmatched_snoc acc c s :
  unmatched acc (c :: s) -> match_blank_line (c :: s) = None ->
  unmatched (acc ++ [c]) s.
Proof.
  intros Hun Hm pre rest Heq.
  destruct rest as [|x rest _] using rev_ind.
  - apply app_inj_tail in Heq as [-> ->]. done.
  - rewrite app_comm_cons, app_assoc in Heq.
    apply app_inj_tail in Heq as [-> ->].
    rewrite <- app_assoc. simpl. by apply (Hun pre).
Qed.

Lemma re_split_no_blank_line s acc p :
  unmatched acc s ->
  p ∈ re_split_from match_blank_line 0 acc s -> ¬ has_blank_line p.
Proof.
  remember (length s) as n eqn:Hn. revert s acc Hn.
  induction n as [n IH] using lt_wf_ind. intros s acc Hn Hun Hp.
  destruct s as [|c s].
  - simpl in Hp. apply list_elem_of_singleton in Hp as ->.
    by eapply unmatched_no_blank_line.
  - simpl in Hn. destruct (match_blank_line (c :: s)) as [[|k]|] eqn:Hm.
    + unfold match_blank_line in Hm. by repeat case_match.
    + rewrite (re_split_step_match _ _ _ _ k) in Hp by done.
      apply elem_of_cons in Hp as [->|Hp].
      * by eapply unmatched_no_blank_line.
      * eapply (IH (length (drop k s))); [|done| |done].
        -- rewrite length_drop. lia.
        -- intros pre rest Heq. by destruct pre.
    + rewrite re_split_step_other in Hp by done.
      eapply (IH (length s)); [lia|done| |done].
      by apply unmatched_snoc.
Qed.

End Pieces.

Section Normalisation_invariants.


Lemma short_runs_cons c r :
  short_runs r -> run_length is_nl (c :: r) <= 2 -> short_runs (c :: r).
Proof.
  intros Hr Hc [|x pre] post Heq.
  - simpl in Heq. by subst.
  - injection Heq as -> ->. by apply (Hr pre).
Qed.

Lemma normalize_short_runs s : short_runs (normalize_breaks s).
Proof.
  pattern s, (normalize_breaks s). apply normalize_ind.
  - intros [|??] [|??] [=]. simpl. lia.
  - intros c rest Hc IH. apply short_runs_cons; [done|]. simpl. rewrite Hc. lia.
  - intros rest Hrun IH. apply short_runs_cons; [done|]. simpl.
    rewrite (normalize_head _ Hrun). lia.
  - intros rest n Hrun IH.
    assert (run_length is_nl (normalize_breaks (drop (S n) rest)) = 0) as H0.
    { apply normalize_head. rewrite <- Hrun. apply run_length_drop. }
    apply short_runs_cons; [apply short_runs_cons; [done|]|];
      simpl; rewrite H0; lia.
Qed.

Lemma filter_newlines (s : str) :
  Forall (λ c, is_nl c = true) s -> filter (λ c, is_nl c = false) s = [].
Proof.
  induction 1 as [|c s Hc _ IH]; [done|].
  rewrite filter_cons_False by congruence. done.
Qed.

Lemma normalize_keeps_text s :
  filter (λ c, is_nl c = false) (normalize_breaks s)
  = filter (λ c, is_nl c = false) s.
Proof.
  pattern s, (normalize_breaks s). apply normalize_ind.
  - done.
  - intros c rest Hc IH. by rewrite !filter_cons_True, IH.
  - intros rest _ IH. by rewrite !filter_cons_False, IH.
  - intros rest n Hrun IH. rewrite !filter_cons_False, IH by done.
    trans (filter (λ c, is_nl c = false) (take (S n) rest ++ drop (S n) rest));
      [|by rewrite take_drop].
    rewrite filter_app, (filter_newlines (take (S n) rest)); [done|].
    rewrite <- Hrun. apply run_length_all.
Qed.

Lemma normalize_length s : length (normalize_breaks s) <= length s.
Proof.
  pattern s, (normalize_breaks s). apply normalize_ind; simpl; try lia.
  intros rest n Hrun IH. rewrite length_drop in IH.
  pose proof (run_length_le is_nl rest). lia.
Qed.

End Normalisation_invariants.


Lemma no_triple_short_runs s :
  (∀ pre post, s ≠ pre ++ [NL; NL; NL] ++ post) ↔ short_runs s.
Proof.
  split.
  - intros Hno pre post ->.
    destruct post as [|a [|b [|c post]]]; simpl; repeat case_match; try lia.
    destruct (Hno pre post).
    by rewrite (is_nl_true a), (is_nl_true b), (is_nl_true c).
  - intros Hshort pre post ->. specialize (Hshort pre _ eq_refl).
    simpl in Hshort. lia.
Qed.

Lemma short_runs_tail c s : short_runs (c :: s) -> short_runs s.
Proof. intros Hs pre post ->. by apply (Hs (c :: pre)). Qed.

Lemma normalize_fixed s : short_runs s -> normalize_breaks s = s.
Proof.
  pattern s, (normalize_breaks s). apply normalize_ind.
  - done.
  - intros c rest _ IH Hs. f_equal. by eapply IH, short_runs_tail.
  - intros rest _ IH Hs. f_equal. by eapply IH, short_runs_tail.
  - intros rest n Hrun IH Hs.
    pose proof (Hs [] _ eq_refl) as Hlen. simpl in Hlen. rewrite Hrun in Hlen.
    assert (n = 0) as -> by lia.
    destruct rest as [|c rest]; [done|]. simpl in Hrun.
    destruct (is_nl c) eqn:Hc; [|done]. rewrite (is_nl_true _ Hc). simpl.
    rewrite drop_0. do 2 f_equal. simpl in IH. rewrite drop_0 in IH.
    by eapply IH, short_runs_tail, short_runs_tail.
Qed.

(** X7: the substitution [re.sub(r"\n{2,}", "\n\n", text)] leaves no three
    newlines in a row, deletes newlines only (the other characters are kept,
    in order), never lengthens the text, and returns unchanged a text that
    has no three newlines in a row. *)
Theorem normalize_breaks_only_drops_newlines (text : str) :
  (∀ pre post, normalize_breaks text ≠ pre ++ [NL; NL; NL] ++ post)
  ∧ filter (λ c, is_nl c = false) (normalize_breaks text)
    = filter (λ c, is_nl c = false) text
  ∧ length (normalize_breaks text) <= length text
  ∧ ((∀ pre post, text ≠ pre ++ [NL; NL; NL] ++ post) ->
     normalize_breaks text = text).
Proof.
  split_and!.
  - apply no_triple_short_runs, normalize_short_runs.
  - apply normalize_keeps_text.
  - apply normalize_length.
  - intros Hno. by apply normalize_fixed, no_triple_short_runs.
Qed.

Lemma paragraphs_normalized text :
  paragraphs (normalize_breaks text) = paragraphs text.
Proof. unfold paragraphs, re_split. by rewrite re_split_normalized. Qed.

(** X1: the [re.sub] step of [extract_clauses] changes nothing downstream:
    splitting on blank lines gives the same pieces, hence the same
    paragraphs, with or without it, and [extract_clauses] is the clause loop
    run on the paragraphs of the text as given. *)
Theorem normalisation_is_redundant (text : str) :
  re_split match_blank_line (normalize_breaks text)
  = re_split match_blank_line text
  ∧ paragraphs (normalize_breaks text) = paragraphs text
  ∧ ∀ max_clauses,
      extract_clauses text max_clauses
      = clause_loop max_clauses [] (paragraphs text).
Proof.
  split_and!.
  - apply re_split_normalized.
  - apply paragraphs_normalized.
  - intros m. unfold extract_clauses. by rewrite paragraphs_normalized.
Qed.

(** X2: with a limit of one or more, [extract_clauses] returns exactly the
    first [max_clauses] paragraphs longer than 40 characters, all of them
    when there are fewer. *)
Theorem extract_clauses_first_long (text : str) (max_clauses : Z) :
  (1 <= max_clauses)%Z ->
  extract_clauses text max_clauses
  = take (Z.to_nat max_clauses) (filter (λ p, 40 < length p) (paragraphs text))
  ∧ length (extract_clauses text max_clauses)
    = Z.to_nat max_clauses
      `min` length (filter (λ p, 40 < length p) (paragraphs text)).
Proof.
  intros Hm. rewrite extract_clauses_take, paragraphs_normalized by done.
  split; [done|]. by rewrite length_take.
Qed.

Lemma extract_clauses_first_long_witness :
  extract_clauses Samples.three_clauses 2 = [Demo.clause_a; Demo.clause_b].
Proof.
  rewrite (proj1 (extract_clauses_first_long Samples.three_clauses 2
                    ltac:(lia))).
  by vm_compute.
Defined.

(** X3: with a limit of zero or less, only the first paragraph is looked
    at: the result is that paragraph when it is longer than 40 characters and
    empty otherwise, whatever follows it. *)
Theorem extract_clauses_nonpositive_limit (text : str) (max_clauses : Z) :
  (max_clauses <= 0)%Z ->
  extract_clauses text max_clauses
  = match paragraphs text with
    | p :: _ => if 40 <? length p then [p] else []
    | [] => []
    end.
Proof.
  intros Hm. unfold extract_clauses. rewrite paragraphs_normalized.
  destruct (paragraphs text) as [|p ps]; [done|]. simpl.
  destruct (40 <? length p); simpl; case_match eqn:Hstop; try done;
    apply Z.leb_gt in Hstop; simpl in Hstop; lia.
Qed.

Lemma extract_clauses_nonpositive_limit_witness :
  extract_clauses Samples.heading_then_clause 0 = []
  ∧ extract_clauses Samples.heading_then_clause 1 = [Demo.clause_b].
Proof.
  split; [|by vm_compute].
  rewrite (extract_clauses_nonpositive_limit Samples.heading_then_clause 0
             ltac:(lia)).
  by vm_compute.
Defined.

(** X4: raising the limit only appends: for limits [1 <= m <= m'] the
    clauses returned for [m] are an initial segment of those returned for
    [m']. *)
Theorem extract_clauses_limit_monotone (text : str) (m m' : Z) :
  (1 <= m)%Z -> (m <= m')%Z ->
  extract_clauses text m `prefix_of` extract_clauses text m'.
Proof.
  intros Hm Hm'. rewrite !extract_clauses_take by lia.
  replace (Z.to_nat m) with (Z.to_nat m `min` Z.to_nat m') by lia.
  rewrite <- take_take. apply prefix_take.
Qed.

Lemma extract_clauses_limit_monotone_witness :
  extract_clauses Samples.three_clauses 1
  `prefix_of` extract_clauses Samples.three_clauses 20.
Proof.
  apply (extract_clauses_limit_monotone Samples.three_clauses 1 20); lia.
Defined.

(** X5: every clause is a contiguous piece of the text as it was passed
    in (not only of its normalised form). *)
Theorem clause_is_substring_of_text (text : str) (max_clauses : Z) (c : str) :
  c ∈ extract_clauses text max_clauses -> substring c text.
Proof.
  intros (_ & _ & piece & Hpiece & ->)%extract_clauses_entries.
  unfold re_split in Hpiece. rewrite re_split_normalized in Hpiece.
  eapply substring_trans; [apply strip_substring|].
  by apply (re_split_substring match_blank_line).
Qed.

Lemma clause_is_substring_of_text_witness :
  substring Demo.clause_b Samples.three_clauses.
Proof.
  apply (clause_is_substring_of_text Samples.three_clauses 20).
  vm_compute. apply list_elem_of_further, list_elem_of_here.
Defined.

(** X6: every clause is longer than 40 characters, neither starts nor
    ends with whitespace, and holds no paragraph break (two newlines with
    only whitespace between them). *)
Theorem clause_shape (text : str) (max_clauses : Z) (c : str) :
  c ∈ extract_clauses text max_clauses ->
  40 < length c
  ∧ (∀ x rest, c = x :: rest -> is_space x = false)
  ∧ (∀ init x, c = init ++ [x] -> is_space x = false)
  ∧ ¬ has_blank_line c.
Proof.
  intros (Hlen & _ & piece & Hpiece & ->)%extract_clauses_entries.
  destruct (strip_trimmed piece) as [Hhead Hlast].
  split_and!; [done|done|done|].
  intros Hblank. apply (has_blank_line_substring _ _ (strip_substring piece)) in Hblank.
  revert Hblank. eapply re_split_no_blank_line; [|exact Hpiece].
  intros pre rest Heq. by destruct pre.
Qed.

Lemma clause_shape_witness :
  40 < length Demo.clause_a ∧ ¬ has_blank_line Demo.clause_a.
Proof.
  destruct (clause_shape Samples.three_clauses 20 Demo.clause_a) as (H1 & _ & _ & H2).
  - vm_compute. apply list_elem_of_here.
  - by split.
Defined.

Section Chunk_lookup.

Lemma chunk_text_seq text n :
  chunk_text text n
  = map (λ k, join [SP] (take n (drop (k * n) (split text))))
        (seq 0 ((length (split text) + n - 1) / n)).
Proof. by rewrite chunk_text_slices, word_slices_alt, map_map. Qed.

Lemma ceil_div_index len n i :
  0 < n -> i < (len + n - 1) / n ↔ i * n < len.
Proof.
  intros Hn. split; [by apply ceil_div_last|].
  intros Hi. pose proof (ceil_div_covers len n Hn). nia.
Qed.

Lemma chunk_text_lookup_index text n i :
  0 < n ->
  chunk_text text n !! i
  = if decide (i * n < length (split text))
    then Some (join [SP] (take n (drop (i * n) (split text))))
    else None.
Proof.
  intros Hn. rewrite chunk_text_seq.
  change (map ?f ?l) with (f <$> l). rewrite list_lookup_fmap.
  destruct (decide (i * n < length (split text))) as [Hi|Hi].
  - rewrite lookup_seq_lt by by apply ceil_div_index. done.
  - rewrite lookup_seq_ge; [done|].
    rewrite <- ceil_div_index in Hi by done. lia.
Qed.

Lemma split_from_join_sep w a b :
  split_from w (a ++ SP :: b) = split_from w a ++ split b.
Proof.
  revert w. induction a as [|c a IH]; intros w; simpl.
  - by destruct w.
  - destruct (is_space c); [|apply IH]. destruct w; simpl; by rewrite IH.
Qed.

(** Splitting a space-joined text splits its parts. *)
Lemma split_join_parts parts : split (join [SP] parts) = concat (map split parts).
Proof.
  induction parts as [|a [|b parts] IH]; [done| |].
  - simpl. by rewrite app_nil_r.
  - change (join [SP] (a :: b :: parts)) with (a ++ SP :: join [SP] (b :: parts)).
    unfold split at 1. rewrite split_from_join_sep, IH. done.
Qed.

End Chunk_lookup.

(** X8: for a positive chunk size, chunk [i] of [chunk_text] exists exactly
    when word [i * max_words] does; it is words [i * max_words] up to
    [(i + 1) * max_words] joined by single spaces, splitting it gives those
    words back, and there is no chunk at all exactly when the text has no
    word. *)
Theorem chunk_text_lookup (text : str) (max_words : nat) :
  0 < max_words ->
  let words := split text in
  (∀ i, chunk_text text max_words !! i
        = if decide (i * max_words < length words)
          then Some (join [SP] (take max_words (drop (i * max_words) words)))
          else None)
  ∧ (∀ i chunk, chunk_text text max_words !! i = Some chunk ->
       split chunk = take max_words (drop (i * max_words) words)
       ∧ length (split chunk)
         = max_words `min` (length words - i * max_words))
  ∧ (chunk_text text max_words = [] ↔ words = []).
Proof.
  intros Hn words. split_and!.
  - intros i. by apply chunk_text_lookup_index.
  - intros i chunk Hi. rewrite chunk_text_lookup_index in Hi by done.
    case_decide; [|done]. injection Hi as <-.
    rewrite split_join by apply Forall_take, Forall_drop, split_words.
    split; [done|]. by rewrite length_take, length_drop.
  - split.
    + intros Hnil. pose proof (chunk_text_lookup_index text max_words 0 Hn) as H0.
      rewrite Hnil in H0. simpl in H0. case_decide; [done|].
      fold words in H. destruct words; [done|simpl in *; lia].
    + intros Hw. apply list_eq. intros i.
      rewrite chunk_text_lookup_index by done. fold words. rewrite Hw.
      by rewrite decide_False by (simpl; lia).
Qed.

Lemma chunk_text_lookup_witness :
  chunk_text (u "  to be   or not to be ") 4 = [u "to be or not"; u "to be"].
Proof.
  apply list_eq. intros i.
  rewrite (proj1 (chunk_text_lookup (u "  to be   or not to be ") 4 ltac:(lia)) i).
  destruct i as [|[|[|i]]]; by vm_compute.
Defined.

(** X9: joining the chunks with single spaces gives a text with the words
    of the original, and chunking that text again gives the same chunks. *)
Theorem chunk_text_round_trip (text : str) (max_words : nat) :
  0 < max_words ->
  split (join [SP] (chunk_text text max_words)) = split text
  ∧ chunk_text (join [SP] (chunk_text text max_words)) max_words
    = chunk_text text max_words.
Proof.
  intros Hn.
  assert (Hsplit : split (join [SP] (chunk_text text max_words)) = split text).
  { rewrite split_join_parts. by apply chunk_text_partition. }
  split; [done|]. unfold chunk_text at 1 3. by rewrite Hsplit.
Qed.

Lemma chunk_text_round_trip_witness :
  split (join [SP] (chunk_text Demo.long_text 700)) = split Demo.long_text.
Proof. apply (chunk_text_round_trip Demo.long_text 700). lia. Defined.


Section Steps.
Context {World : Type}.
Implicit Types st : state World.

Lemma step_refl flag kind st : step flag kind st st.
Proof.
  split_and!; [done..|]. exists []. by rewrite app_nil_r.
Qed.

Lemma step_trans flag kind st1 st2 st3 :
  step flag kind st1 st2 -> step flag kind st2 st3 -> step flag kind st1 st3.
Proof.
  intros (Hf1 & Hg1 & n1 & Hc1 & Hk1) (Hf2 & Hg2 & n2 & Hc2 & Hk2).
  split_and!; [congruence..|]. exists (n1 ++ n2).
  rewrite Hc2, Hc1, <- app_assoc. split; [done|]. by apply Forall_app.
Qed.

Lemma step_log flag kind st c w :
  kind c = true -> (∀ w' st', flag (set_world w' st') = flag st') ->
  (∀ st', flag (log_call c st') = flag st') ->
  step flag kind st (set_world w (log_call c st)).
Proof.
  intros Hk Hw Hl. split_and!; [done|by rewrite Hw, Hl|].
  exists [c]. split; [done|]. by constructor.
Qed.

End Steps.

Section Handles.
Context {World : Type} (env : capabilities World).

Lemma get_summarizer_step kind st :
  step _nli_classifier kind st (get_summarizer env st).2.
Proof.
  unfold get_summarizer. destruct (_summarizer st); [apply step_refl|].
  destruct (pipeline env Summarization (world st)) as [[[]|e] w]; simpl;
    (split_and!; [done..|]; exists []; by rewrite app_nil_r).
Qed.

Lemma get_nli_step kind st :
  step _summarizer kind st (get_nli env st).2.
Proof.
  unfold get_nli. destruct (_nli_classifier st); [apply step_refl|].
  destruct (pipeline env TextClassification (world st)) as [[[]|e] w]; simpl;
    (split_and!; [done..|]; exists []; by rewrite app_nil_r).
Qed.

End Handles.

(** X10: [get_summarizer] and [get_nli] construct their pipeline at most
    once: after a call that returns, the global is set and every later call
    returns at once without consulting [pipeline]; after a call that raises,
    the global is still unset, so the next call tries again.  Neither
    touches the other's global. *)
Theorem lazy_handles_cache {World} (env : capabilities World)
    (st : state World) :
  match get_summarizer env st with
  | (Returns _, st1) =>
      _summarizer st1 = true
      ∧ ∀ env' : capabilities World, get_summarizer env' st1 = (Returns (), st1)
  | (Raises e, st1) => _summarizer st = false ∧ _summarizer st1 = false
  end
  ∧ match get_nli env st with
    | (Returns _, st1) =>
        _nli_classifier st1 = true
        ∧ ∀ env' : capabilities World, get_nli env' st1 = (Returns (), st1)
    | (Raises e, st1) => _nli_classifier st = false ∧ _nli_classifier st1 = false
    end
  ∧ _nli_classifier (get_summarizer env st).2 = _nli_classifier st
  ∧ _summarizer (get_nli env st).2 = _summarizer st.
Proof.
  split_and!.
  - unfold get_summarizer. destruct (_summarizer st) eqn:Hs.
    + split; [done|]. intros env'. by rewrite Hs.
    + by destruct (pipeline env Summarization (world st)) as [[[]|e] w].
  - unfold get_nli. destruct (_nli_classifier st) eqn:Hs.
    + split; [done|]. intros env'. by rewrite Hs.
    + by destruct (pipeline env TextClassification (world st)) as [[[]|e] w].
  - by destruct (get_summarizer_step env is_summarizer_call st) as (_ & ? & _).
  - by destruct (get_nli_step env is_nli_call st) as (_ & ? & _).
Qed.

Section Summarizer_steps.
Context {World : Type} (env : capabilities World).

Lemma summarize_once_outcome text max_length min_length st :
  let out := run_summarizer env text max_length min_length true (world st) in
  summarize_once env text max_length min_length st
  = (match out.1 with
     | Returns (top :: _) => Returns (summary_text top)
     | Returns [] => Raises IndexError
     | Raises e => Raises e
     end,
     set_world out.2
       (log_call (CallSummarizer text max_length min_length true) st)).
Proof.
  unfold summarize_once, summarizer, invoke, mbind, M_bind.
  by destruct (run_summarizer env text max_length min_length true (world st))
    as [[[|top rest]|e] w].
Qed.

Lemma summarize_once_step text max_length min_length st :
  step _nli_classifier is_summarizer_call st
    (summarize_once env text max_length min_length st).2.
Proof. rewrite summarize_once_outcome. by apply step_log. Qed.

Lemma summarize_chunks_step chunks st :
  step _nli_classifier is_summarizer_call st
    (mapM (λ c, summarize_once env c 120 30) chunks st).2.
Proof.
  revert st. induction chunks as [|c chunks IH]; intros st; [apply step_refl|].
  simpl. unfold mbind, M_bind at 1.
  pose proof (summarize_once_step c 120 30 st) as H1.
  destruct (summarize_once env c 120 30 st) as [[s|e] st1]; [|done].
  unfold mbind, M_bind at 1. specialize (IH st1).
  destruct (mapM (λ c, summarize_once env c 120 30) chunks st1)
    as [[partials|e] st2]; simpl in *; by eapply step_trans.
Qed.

Lemma summarize_text_step text max_length st :
  step _nli_classifier is_summarizer_call st
    (summarize_text env text max_length st).2.
Proof.
  unfold summarize_text, mbind, M_bind at 1.
  pose proof (get_summarizer_step env is_summarizer_call st) as H0.
  destruct (get_summarizer env st) as [[[]|e] st0]; [|done].
  eapply step_trans; [exact H0|]. clear H0. simpl.
  destruct (length (split text) <? 800); [apply summarize_once_step|].
  unfold mbind, M_bind.
  pose proof (summarize_chunks_step (chunk_text text default_max_words) st0) as H1.
  destruct (mapM (λ c, summarize_once env c 120 30)
              (chunk_text text default_max_words) st0) as [[partials|e] st1];
    [|done].
  eapply step_trans; [exact H1|]. apply summarize_once_step.
Qed.

End Summarizer_steps.

(** X11: for a text of fewer than 800 words, [summarize_text] raises what
    [get_summarizer] raises, without any call to the summarizer; otherwise
    its outcome is read off the one call: the [summary_text] of the first
    candidate, [IndexError] when the candidate list is empty, and the
    summarizer's own exception when it raises. *)
Theorem summarize_text_short_outcome {World} (env : capabilities World)
    (text : str) (max_length : Z) (st : state World) :
  length (split text) < 800 ->
  match get_summarizer env st with
  | (Raises e, st0) =>
      summarize_text env text max_length st = (Raises e, st0)
      ∧ calls st0 = calls st
  | (Returns _, st0) =>
      (summarize_text env text max_length st).1
      = match (run_summarizer env text max_length 30 true (world st0)).1 with
        | Returns (top :: _) => Returns (summary_text top)
        | Returns [] => Raises IndexError
        | Raises e => Raises e
        end
  end.
Proof.
  intros Hshort%Nat.ltb_lt.
  assert (Hrun : summarize_text env text max_length st
                 = match get_summarizer env st with
                   | (Returns _, st0) => summarize_once env text max_length 30 st0
                   | (Raises e, st0) => (Raises e, st0)
                   end).
  { unfold summarize_text, mbind, M_bind at 1.
    destruct (get_summarizer env st) as [[[]|e] st0]; [by rewrite Hshort|done]. }
  rewrite Hrun. destruct (get_summarizer env st) as [[[]|e] st0] eqn:Hget.
  - by rewrite summarize_once_outcome.
  - split; [done|]. by eapply get_summarizer_calls.
Qed.

Lemma summarize_text_short_outcome_witness :
  (summarize_text Samples.silent_env (u "Short text.") 200 Demo.start).1
  = Raises IndexError
  ∧ summarize_text Samples.no_summarizer_env (u "Short text.") 200 Demo.start
    = (Raises (Failure 2), Demo.start).
Proof.
  split.
  - exact (summarize_text_short_outcome Samples.silent_env (u "Short text.")
             200 Demo.start ltac:(vm_compute; lia)).
  - exact (proj1 (summarize_text_short_outcome Samples.no_summarizer_env
                    (u "Short text.") 200 Demo.start ltac:(vm_compute; lia))).
Defined.

(** X12: for a text of 800 words or more, when the summarizer has answered
    the calls on the first [k] chunks with a candidate each and raises on
    chunk [k], or returns no candidate for it, [summarize_text] ends there
    with that exception ([IndexError] for no candidate): [k + 1] chunk calls
    have been made, the chunks after it are not summarized and the reduce
    call is not made.  Either some chunk call fails in this way, or every
    chunk call yields a candidate and the reduce call is made. *)
Theorem summarize_text_stops_at_failure {World} (env : capabilities World)
    (text : str) (max_length : Z) (st st0 : state World) :
  get_summarizer env st = (Returns (), st0) ->
  800 <= length (split text) ->
  let chunks := chunk_text text 700 in
  (∀ k c partials w e,
     chunks !! k = Some c ->
     first_pass env (take k chunks) (world st0) = (AllAnswered partials, w) ->
     (run_summarizer env c 120 30 true w).1 = Raises e
     ∨ ((run_summarizer env c 120 30 true w).1 = Returns [] ∧ e = IndexError) ->
     ∃ st',
       summarize_text env text max_length st = (Raises e, st')
       ∧ world st' = (run_summarizer env c 120 30 true w).2
       ∧ calls st' = calls st ++ map chunk_call (take (S k) chunks))
  ∧ ((∃ k c partials w e,
        chunks !! k = Some c
        ∧ first_pass env (take k chunks) (world st0) = (AllAnswered partials, w)
        ∧ ((run_summarizer env c 120 30 true w).1 = Raises e
           ∨ ((run_summarizer env c 120 30 true w).1 = Returns []
              ∧ e = IndexError)))
     ∨ (∃ partials w1 r st',
          first_pass env chunks (world st0) = (AllAnswered partials, w1)
          ∧ summarize_text env text max_length st = (r, st')
          ∧ calls st'
            = calls st ++ map chunk_call chunks
              ++ [CallSummarizer (join [SP] partials) max_length 50 true])).
Proof.
  intros Hget Hlong chunks.
  destruct (summarize_text_long_run env text max_length st st0 Hget Hlong)
    as (st' & Hcase).
  fold chunks in Hcase. split.
  - intros k c partials w e Hc Htake Hout.
    assert (first_candidate (run_summarizer env c 120 30 true w).1 = Raises e)
      as Hfail by (by destruct Hout as [->|[-> ->]]).
    rewrite (first_pass_fails_at env _ _ _ _ _ _ _ Hc Htake Hfail) in Hcase.
    destruct Hcase as (_ & Hrun & Hw & Hcalls). by exists st'.
  - destruct (first_pass env chunks (world st0)) as [[partials|k e] w1]
      eqn:Hfirst.
    + right. destruct Hcase as (_ & Hrun & Hcalls). by eexists _, _, _, _.
    + left. destruct (first_pass_failed env _ _ _ _ _ Hfirst)
        as (c & partials & wk & Hc & Htake & Hout & _).
      exists k, c, partials, wk, e. split_and!; [done..|].
      destruct (run_summarizer env c 120 30 true wk).1 as [[|top rest]|e0];
        simpl in Hout; [right|done|left]; by injection Hout as <-.
Qed.

Lemma summarize_text_stops_at_failure_witness :
  length (chunk_text Samples.text_1500 700) = 3
  ∧ (∃ st',
       summarize_text Samples.flaky_env Samples.text_1500 200 Demo.start
       = (Raises (Failure 9), st')
       ∧ length (calls st') = 2)
  ∧ (∃ st',
       summarize_text Samples.silent_env Samples.text_1500 200 Demo.start
       = (Raises IndexError, st')
       ∧ length (calls st') = 1).
Proof.
  split_and!; [by vm_compute| |].
  - destruct (summarize_text_stops_at_failure Samples.flaky_env
                Samples.text_1500 200 Demo.start _ eq_refl
                ltac:(vm_compute; lia)) as [Hstop _].
    destruct (Hstop 1 (join [SP] (replicate 700 [119%N]))
                [take 8 (join [SP] (replicate 700 [119%N]))] 1 (Failure 9))
      as (st' & Hrun & _ & Hcalls).
    + by vm_compute.
    + by vm_compute.
    + by left.
    + exists st'. split; [done|].
      rewrite Hcalls, length_app, length_map, length_take. by vm_compute.
  - destruct (summarize_text_stops_at_failure Samples.silent_env
                Samples.text_1500 200 Demo.start _ eq_refl
                ltac:(vm_compute; lia)) as [Hstop _].
    destruct (Hstop 0 (join [SP] (replicate 700 [119%N])) [] 0 IndexError)
      as (st' & Hrun & _ & Hcalls).
    + by vm_compute.
    + by vm_compute.
    + by right.
    + exists st'. split; [done|].
      rewrite Hcalls, length_app, length_map, length_take. by vm_compute.
Defined.

(** X13: whatever its outcome, [summarize_text] leaves the classifier
    global alone, and everything it adds to the call log is a summarizer
    call. *)
Theorem summarize_text_touches_only_the_summarizer {World}
    (env : capabilities World) (text : str) (max_length : Z) (st : state World) :
  let st' := (summarize_text env text max_length st).2 in
  _nli_classifier st' = _nli_classifier st
  ∧ ∃ new, calls st' = calls st ++ new
           ∧ Forall (λ c, is_summarizer_call c = true) new.
Proof. apply summarize_text_step. Qed.


Section Flagger_steps.
Context {World : Type} (env : capabilities World).

Lemma check_pair_frame clause h flagged st :
  step _summarizer is_nli_call st (check_pair env clause h flagged st).2.
Proof. rewrite check_pair_cases. by apply step_log. Qed.

Lemma for_each_step {A B} (flag : state World -> bool) kind (xs : list A)
    (body : A -> B -> M World B) :
  (∀ x acc st, step flag kind st (body x acc st).2) ->
  ∀ acc st, step flag kind st (for_each xs body acc st).2.
Proof.
  intros Hbody. induction xs as [|x xs IH]; intros acc st; [apply step_refl|].
  simpl. unfold mbind, M_bind. specialize (Hbody x acc st).
  destruct (body x acc st) as [[acc'|e] st1]; [|done].
  eapply step_trans; [exact Hbody|apply IH].
Qed.

Lemma scan_step clauses st :
  step _summarizer is_nli_call st (scan env clauses st).2.
Proof.
  unfold scan. apply for_each_step. intros clause acc st1.
  apply for_each_step. intros h acc' st2. apply check_pair_frame.
Qed.

Lemma flag_risks_step clauses st :
  step _summarizer is_nli_call st (flag_risks_with_nli env clauses st).2.
Proof.
  unfold flag_risks_with_nli, mbind, M_bind at 1.
  pose proof (get_nli_step env is_nli_call st) as H0.
  destruct (get_nli env st) as [[[]|e] st0]; [|done].
  eapply step_trans; [exact H0|]. unfold mbind, M_bind.
  pose proof (scan_step clauses st0) as H1.
  by destruct (scan env clauses st0) as [[flagged|e] st1].
Qed.

Lemma scan_findings_length clauses :
  length (scan_findings clauses) = 4 * length clauses.
Proof.
  unfold scan_findings. induction clauses as [|c cs IH]; [done|].
  rewrite bind_cons, length_app, IH. simpl. lia.
Qed.

Lemma scan_calls_length clauses :
  length (scan_calls clauses) = 4 * length clauses.
Proof.
  unfold scan_calls. induction clauses as [|c cs IH]; [done|].
  rewrite bind_cons, length_app, IH. simpl. lia.
Qed.

Lemma scan_findings_elem f clauses :
  f ∈ scan_findings clauses ->
  ∃ h c, h ∈ hypotheses ∧ c ∈ clauses ∧ f = finding h c.
Proof.
  unfold scan_findings. intros (c & Hf & Hc)%list_elem_of_bind.
  apply list_elem_of_In, in_map_iff in Hf as (h & <- & Hh).
  exists h, c. by rewrite list_elem_of_In.
Qed.

Lemma hypothesis_length h : h ∈ hypotheses -> length h <= 46.
Proof.
  intros Hh. unfold hypotheses in Hh.
  repeat (apply elem_of_cons in Hh as [->|Hh]; [vm_compute; lia|]).
  by apply not_elem_of_nil in Hh.
Qed.

Lemma finding_length h clause :
  length (finding h clause) = length h + 6 + length clause `min` 200.
Proof.
  unfold finding, slice. rewrite drop_0, !length_app, length_take.
  change (length (u "...")) with 3. change (length [SP; ARROW; SP]) with 3. lia.
Qed.

Lemma flag_risks_result clauses st r st' :
  flag_risks_with_nli env clauses st = (Returns r, st') ->
  NoDup r
  ∧ length r <= 4 * length clauses
  ∧ (∀ f, f ∈ r ->
       ∃ h c, h ∈ hypotheses ∧ c ∈ clauses ∧ f = finding h c
              ∧ length f <= 252)
  ∧ calls st' = calls st ++ scan_calls clauses.
Proof.
  intros Hrun. unfold flag_risks_with_nli, mbind, M_bind at 1 in Hrun.
  destruct (get_nli env st) as [[[]|e] st0] eqn:Hget; [|done].
  destruct (scan_total env clauses st0) as (flagged & st1 & Hscan & Hcalls & Hsub).
  unfold mbind, M_bind in Hrun. rewrite Hscan in Hrun. injection Hrun as <- <-.
  destruct (dedupe_spec flagged) as (Hnd & Hel & _).
  apply sublist_length in Hsub as Hlen. rewrite scan_findings_length in Hlen.
  split_and!.
  - done.
  - etrans; [|exact Hlen]. apply submseteq_length, NoDup_submseteq; [done|].
    intros x. by rewrite Hel.
  - intros f Hf%Hel.
    destruct (scan_findings_elem f clauses) as (h & c & Hh & Hc & ->).
    { by eapply elem_of_sublist. }
    exists h, c. split_and!; [done..|].
    rewrite finding_length. pose proof (hypothesis_length h Hh). lia.
  - by rewrite Hcalls, (get_nli_calls env _ _ _ Hget).
Qed.

End Flagger_steps.

(** X14: a call of [flag_risks_with_nli] that returns has put exactly four
    pairs to the classifier for each clause; it returns at most four findings
    per clause, each of them built from one of the four hypotheses and one
    of the clauses passed in, and none longer than 252 characters. *)
Theorem flag_risks_cost_and_bounds {World} (env : capabilities World)
    (clauses : list str) (st : state World) (r : list str) (st' : state World) :
  flag_risks_with_nli env clauses st = (Returns r, st') ->
  length (calls st') = length (calls st) + 4 * length clauses
  ∧ length r <= 4 * length clauses
  ∧ ∀ f, f ∈ r ->
      ∃ h c, h ∈ hypotheses ∧ c ∈ clauses ∧ f = finding h c
             ∧ length f <= 252.
Proof.
  intros Hrun.
  destruct (flag_risks_result env _ _ _ _ Hrun) as (_ & Hlen & Hel & Hcalls).
  split_and!; [|done..].
  by rewrite Hcalls, length_app, scan_calls_length.
Qed.

Lemma flag_risks_cost_and_bounds_witness :
  ∃ r st',
    flag_risks_with_nli Demo.env [Demo.clause_a; Demo.clause_b] Demo.start
    = (Returns r, st')
    ∧ length (calls st') = 8 ∧ length r <= 8.
Proof.
  assert (∃ r st',
            flag_risks_with_nli Demo.env [Demo.clause_a; Demo.clause_b]
              Demo.start = (Returns r, st'))
    as (r & st' & Hrun) by (by eexists _, _; vm_compute).
  destruct (flag_risks_cost_and_bounds Demo.env _ _ r st' Hrun) as (Hc & Hr & _).
  by exists r, st'.
Defined.

Section Findings.

Lemma hypotheses_distinct_heads h h' :
  h ∈ hypotheses -> h' ∈ hypotheses -> take 20 h = take 20 h' -> h = h'.
Proof.
  intros Hh Hh'. unfold hypotheses in *.
  repeat (apply elem_of_cons in Hh as [->|Hh]);
    [..|by apply not_elem_of_nil in Hh];
    repeat (apply elem_of_cons in Hh' as [->|Hh']);
    try (by apply not_elem_of_nil in Hh'); by vm_compute.
Qed.

Lemma finding_unfold h c :
  finding h c = h ++ [SP; ARROW; SP] ++ take 200 c ++ u "...".
Proof. done. Qed.

Lemma hypothesis_long h : h ∈ hypotheses -> 20 <= length h.
Proof.
  intros Hh. unfold hypotheses in Hh.
  repeat (apply elem_of_cons in Hh as [->|Hh]; [vm_compute; lia|]).
  by apply not_elem_of_nil in Hh.
Qed.

End Findings.

(** X15: two findings for hypotheses of the list are the same string
    exactly when the hypothesis is the same and the clauses agree on their
    first 200 characters: clauses that differ only later are merged by the
    deduplication. *)
Theorem finding_collisions (h h' c c' : str) :
  h ∈ hypotheses -> h' ∈ hypotheses ->
  finding h c = finding h' c' ↔ h = h' ∧ take 200 c = take 200 c'.
Proof.
  intros Hh Hh'. split.
  - intros Heq.
    assert (h = h') as <-.
    { apply hypotheses_distinct_heads; [done..|].
      apply (f_equal (take 20)) in Heq. rewrite !finding_unfold in Heq.
      by rewrite !take_app_le in Heq by by apply hypothesis_long. }
    split; [done|]. rewrite !finding_unfold in Heq.
    apply app_inv_head in Heq. apply app_inv_head in Heq.
    by apply app_inv_tail in Heq.
  - intros [<- Hc]. by rewrite !finding_unfold, Hc.
Qed.

Lemma finding_collisions_witness :
  finding (u "This clause allows automatic renewal.")
    (replicate 200 120%N ++ u "first ending")
  = finding (u "This clause allows automatic renewal.")
      (replicate 200 120%N ++ u "another ending").
Proof.
  apply (finding_collisions (u "This clause allows automatic renewal.")
           (u "This clause allows automatic renewal.")).
  - unfold hypotheses. do 2 apply list_elem_of_further. apply list_elem_of_here.
  - unfold hypotheses. do 2 apply list_elem_of_further. apply list_elem_of_here.
  - split; [done|]. by vm_compute.
Defined.

Section Dedupe_algebra.

Lemma add_keys_distinct acc l :
  NoDup (acc ++ l) -> foldl add_key acc l = acc ++ l.
Proof.
  revert acc. induction l as [|k l IH]; intros acc Hnd; simpl.
  - by rewrite app_nil_r.
  - unfold add_key at 2. rewrite decide_False.
    + rewrite IH; rewrite <- app_assoc; done.
    + apply NoDup_app in Hnd as (_ & Hdis & _). intros Hk.
      apply (Hdis k Hk). left.
Qed.

End Dedupe_algebra.

(** X16: [list(dict.fromkeys(l))] is idempotent, returns [l] itself
    exactly when [l] has no duplicates, never lengthens the list and keeps
    every entry at least once. *)
Theorem dedupe_algebra (l : list str) :
  dedupe (dedupe l) = dedupe l
  ∧ (dedupe l = l ↔ NoDup l)
  ∧ length (dedupe l) <= length l
  ∧ (∀ x, x ∈ dedupe l ↔ x ∈ l).
Proof.
  destruct (dedupe_spec l) as (Hnd & Hel & _).
  assert (Hfix : ∀ k, NoDup k -> dedupe k = k).
  { intros k Hk. rewrite dedupe_fold. by apply (add_keys_distinct []). }
  split_and!.
  - by apply Hfix.
  - split; [by intros <-|apply Hfix].
  - apply submseteq_length, NoDup_submseteq; [done|]. intros x. by rewrite Hel.
  - done.
Qed.

Section Codecs.

Ltac split_bounds :=
  unfold is_cont in *;
  repeat match goal with
         | H : (_ && _)%bool = true |- _ => apply andb_true_iff in H as [? ?]
         end;
  repeat match goal with
         | H : (_ <=? _)%N = true |- _ => apply N.leb_le in H
         | H : (_ <? _)%N = true |- _ => apply N.ltb_lt in H
         end.

Lemma utf8_code_points_spec bs s :
  utf8_code_points bs = Some s ->
  length s <= length bs ∧ Forall (λ c, (c <= 1114111)%N) s.
Proof.
  remember (length bs) as n eqn:Hn. revert bs s Hn.
  induction n as [n IH] using lt_wf_ind. intros bs s Hn Hs.
  destruct bs as [|b0 r0]; simpl in Hs.
  { injection Hs as <-. split; [simpl; lia|constructor]. }
  destruct (b0 <? 128)%N eqn:H1.
  { apply fmap_Some in Hs as (s' & Hs' & ->). simpl in Hn.
    destruct (IH (length r0) ltac:(lia) r0 s' eq_refl Hs') as [Hlen Hall].
    split; [simpl; lia|]. constructor; [|done]. split_bounds. lia. }
  destruct ((194 <=? b0) && (b0 <=? 223))%N eqn:H2.
  { destruct r0 as [|b1 r1]; [done|]. destruct (is_cont b1) eqn:Hc1; [|done].
    apply fmap_Some in Hs as (s' & Hs' & ->). simpl in Hn.
    destruct (IH (length r1) ltac:(lia) r1 s' eq_refl Hs') as [Hlen Hall].
    split; [simpl; lia|]. constructor; [|done]. split_bounds. lia. }
  destruct ((224 <=? b0) && (b0 <=? 239))%N eqn:H3.
  { destruct r0 as [|b1 [|b2 r2]]; [done..|].
    case_match eqn:Hok; [|done].
    apply fmap_Some in Hs as (s' & Hs' & ->). simpl in Hn.
    destruct (IH (length r2) ltac:(lia) r2 s' eq_refl Hs') as [Hlen Hall].
    split; [simpl; lia|]. constructor; [|done]. split_bounds. lia. }
  destruct ((240 <=? b0) && (b0 <=? 244))%N eqn:H4; [|done].
  destruct r0 as [|b1 [|b2 [|b3 r3]]]; [done..|].
  case_match eqn:Hok; [|done].
  apply fmap_Some in Hs as (s' & Hs' & ->). simpl in Hn.
  destruct (IH (length r3) ltac:(lia) r3 s' eq_refl Hs') as [Hlen Hall].
  split; [simpl; lia|]. constructor; [|done]. split_bounds. lia.
Qed.

Lemma utf8_code_points_ascii bs :
  Forall (λ b, (b < 128)%N) bs -> utf8_code_points bs = Some bs.
Proof.
  induction 1 as [|b bs Hb _ IH]; [done|]. simpl.
  apply N.ltb_lt in Hb. by rewrite Hb, IH.
Qed.

Lemma decode_latin1_bounded bs :
  Forall (λ c, (c <= 1114111)%N) (decode_latin1 bs).
Proof.
  unfold decode_latin1. apply Forall_fmap, Forall_true. intros b. simpl.
  pose proof (Byte.to_N_bounded b). lia.
Qed.

End Codecs.

Section Upload_steps.
Context {World : Type} (env : capabilities World).

Lemma text_upload_run upload st :
  endswith (py_lower env (default [] (filename upload))) PDF_SUFFIX = false ->
  extract_text_from_upload env upload st
  = (Returns match decode_utf8 (contents upload) with
             | Some s => s
             | None => decode_latin1 (contents upload)
             end, st).
Proof.
  intros Htxt. unfold extract_text_from_upload. cbv zeta. rewrite Htxt.
  unfold try_except. by destruct (decode_utf8 (contents upload)).
Qed.

Lemma extract_text_frame upload st :
  let st' := (extract_text_from_upload env upload st).2 in
  files st' = files st
  ∧ _summarizer st' = _summarizer st
  ∧ _nli_classifier st' = _nli_classifier st
  ∧ (calls st' = calls st
     ∨ calls st' = calls st ++ [CallPdfExtract (fresh (dom (files st)))]).
Proof.
  destruct (endswith (py_lower env (default [] (filename upload))) PDF_SUFFIX)
    eqn:Hpdf.
  - rewrite pdf_upload_run by done. simpl. split_and!; [done..|by right].
  - rewrite text_upload_run by done. simpl. split_and!; [done..|by left].
Qed.

End Upload_steps.

(** X17: for every upload and on every outcome, [extract_text_from_upload]
    leaves the disk as it found it and both model globals untouched, and
    adds to the call log nothing, or one PDF extraction on the temporary
    file. *)
Theorem extract_text_leaves_no_file {World} (env : capabilities World)
    (upload : UploadFile) (st : state World) :
  let st' := (extract_text_from_upload env upload st).2 in
  files st' = files st
  ∧ _summarizer st' = _summarizer st
  ∧ _nli_classifier st' = _nli_classifier st
  ∧ (calls st' = calls st
     ∨ calls st' = calls st ++ [CallPdfExtract (fresh (dom (files st)))]).
Proof. apply extract_text_frame. Qed.

(** X18: for an upload that is not taken as a PDF, the text returned has at
    most one character per byte of the upload, holds code points up to
    U+10FFFF only, and for pure ASCII content is that content, byte for
    byte. *)
Theorem text_upload_size {World} (env : capabilities World)
    (upload : UploadFile) (st : state World) :
  endswith (py_lower env (default [] (filename upload))) PDF_SUFFIX = false ->
  ∃ s,
    extract_text_from_upload env upload st = (Returns s, st)
    ∧ length s <= length (contents upload)
    ∧ Forall (λ c, (c <= 1114111)%N) s
    ∧ (Forall (λ b, (Byte.to_N b < 128)%N) (contents upload) ->
       s = decode_latin1 (contents upload)).
Proof.
  intros Htxt. rewrite text_upload_run by done. eexists. split; [done|].
  unfold decode_utf8.
  destruct (utf8_code_points (map Byte.to_N (contents upload))) as [s|] eqn:Hs.
  - apply utf8_code_points_spec in Hs as Hspec. destruct Hspec as [Hlen Hall].
    rewrite length_map in Hlen. split_and!; [done..|].
    intros Hascii. unfold decode_latin1.
    rewrite utf8_code_points_ascii in Hs; [by injection Hs|].
    by apply Forall_fmap.
  - split_and!.
    + unfold decode_latin1. by rewrite length_map.
    + apply decode_latin1_bounded.
    + done.
Qed.

Lemma text_upload_size_witness :
  ∃ s,
    extract_text_from_upload Demo.env
      {| filename := Some (u "memo.TXT");
         contents := [Byte.xe2; Byte.x82; Byte.xac; Byte.x35] |} Demo.start
    = (Returns s, Demo.start)
    ∧ length s <= 4.
Proof.
  destruct (text_upload_size Demo.env
              {| filename := Some (u "memo.TXT");
                 contents := [Byte.xe2; Byte.x82; Byte.xac; Byte.x35] |}
              Demo.start eq_refl) as (s & Hrun & Hlen & _).
  by exists s.
Defined.

Section Endpoint.
Context {World : Type} (env : capabilities World).


(** The request as a chain of three stages, each of which may end it. *)
Lemma analyze_document_stages text file st :
  truthy text = true ∨ is_Some file ->
  analyze_document env text file st
  = match match file with
          | Some f => extract_text_from_upload env f st
          | None => (Returns (default [] text), st)
          end with
    | (Raises e, st1) => (Raises e, st1)
    | (Returns doc, st1) =>
        match summarize_text env doc default_max_length st1 with
        | (Raises e, st2) => (Raises e, st2)
        | (Returns s, st2) =>
            match flag_risks_with_nli env
                    (extract_clauses doc default_max_clauses) st2 with
            | (Raises e, st3) => (Raises e, st3)
            | (Returns r, st3) =>
                (Returns {| summary := s;
                            clauses := extract_clauses doc default_max_clauses;
                            flagged_risks := r |}, st3)
            end
        end
    end.
Proof.
  intros Hin. unfold analyze_document.
  assert (negb (truthy text) && negb (bool_decide (is_Some file)) = false) as ->.
  { destruct Hin as [->|Hf]; [done|]. rewrite bool_decide_true by done.
    by rewrite andb_false_r. }
  unfold mbind, M_bind.
  destruct file as [f|].
  - destruct (extract_text_from_upload env f st) as [[doc|e] st1]; [|done].
    destruct (summarize_text env doc default_max_length st1) as [[s|e] st2];
      [|done].
    by destruct (flag_risks_with_nli env _ st2) as [[r|e] st3].
  - destruct Hin as [Ht|[? [=]]]. rewrite Ht. unfold mret, M_ret.
    destruct (summarize_text env (default [] text) default_max_length st)
      as [[s|e] st2]; [|done].
    by destruct (flag_risks_with_nli env _ st2) as [[r|e] st3].
Qed.

Lemma analyze_document_short_circuit text file st :
  truthy text = false -> file = None ->
  analyze_document env text file st
  = (Returns {| summary := []; clauses := []; flagged_risks := [] |}, st).
Proof. intros Ht ->. unfold analyze_document. by rewrite Ht. Qed.

Lemma request_cases text (file : option UploadFile) :
  (truthy text = false ∧ file = None) ∨ (truthy text = true ∨ is_Some file).
Proof. destruct (truthy text), file; eauto. Qed.

End Endpoint.

(** X19: when a file is supplied, the text field is not looked at: the
    request runs the same with any text, or none. *)
Theorem analyze_document_file_takes_precedence {World}
    (env : capabilities World) (text text' : option str) (file : UploadFile)
    (st : state World) :
  analyze_document env text (Some file) st
  = analyze_document env text' (Some file) st.
Proof. by rewrite !analyze_document_stages by (right; done). Qed.

(** X20: a response of [analyze_document] has at most 20 clauses, each
    longer than 40 characters; its flagged risks are distinct, at most four
    per clause, each built from one of the four hypotheses and one of the
    returned clauses, and at most 252 characters long; without a file the
    clauses are those of the text. *)
Theorem analyze_document_response_bounds {World} (env : capabilities World)
    (text : option str) (file : option UploadFile) (st : state World)
    (resp : AnalyzeResponse) (st' : state World) :
  analyze_document env text file st = (Returns resp, st') ->
  length (clauses resp) <= 20
  ∧ Forall (λ c, 40 < length c) (clauses resp)
  ∧ NoDup (flagged_risks resp)
  ∧ length (flagged_risks resp) <= 4 * length (clauses resp)
  ∧ (∀ f, f ∈ flagged_risks resp ->
       ∃ h c, h ∈ hypotheses ∧ c ∈ clauses resp ∧ f = finding h c
              ∧ length f <= 252)
  ∧ (file = None -> clauses resp = extract_clauses (default [] text) 20).
Proof.
  intros Hrun. destruct (request_cases text file) as [[Ht ->]|Hin].
  - rewrite analyze_document_short_circuit in Hrun by done.
    injection Hrun as <- <-. simpl. split_and!.
    + lia.
    + constructor.
    + constructor.
    + lia.
    + intros f Hf. by apply not_elem_of_nil in Hf.
    + intros _. by destruct text as [[|??]|].
  - rewrite analyze_document_stages in Hrun by done.
    destruct (match file with
              | Some f => extract_text_from_upload env f st
              | None => (Returns (default [] text), st)
              end) as [[doc|e] st1] eqn:Hdoc; [|done].
    destruct (summarize_text env doc default_max_length st1) as [[s|e] st2];
      [|done].
    destruct (flag_risks_with_nli env _ st2) as [[r|e] st3] eqn:Hflag; [|done].
    injection Hrun as <- <-. simpl.
    destruct (flag_risks_result env _ _ _ _ Hflag) as (Hnd & Hlen & Hel & _).
    split_and!; try done.
    + pose proof (extract_clauses_bounded doc default_max_clauses
                    ltac:(unfold default_max_clauses; lia)).
      unfold default_max_clauses in *. lia.
    + apply List.Forall_forall. intros c Hc%list_elem_of_In.
      by apply extract_clauses_entries in Hc as [? _].
    + intros ->. by injection Hdoc as <- _.
Qed.

Lemma analyze_document_response_bounds_witness :
  ∃ resp st',
    analyze_document Demo.env (Some Demo.two_paragraphs) None Demo.start
    = (Returns resp, st')
    ∧ length (clauses resp) <= 20
    ∧ NoDup (flagged_risks resp).
Proof.
  assert (∃ resp st',
            analyze_document Demo.env (Some Demo.two_paragraphs) None Demo.start
            = (Returns resp, st'))
    as (resp & st' & Hrun) by (by eexists _, _; vm_compute).
  destruct (analyze_document_response_bounds Demo.env _ _ _ resp st' Hrun)
    as (Hlen & _ & Hnd & _).
  by exists resp, st'.
Defined.

(** X21: when summarization of a non-empty text raises, the request raises
    that exception and no classification has been attempted: the classifier
    global is as before and the call log has grown by summarizer calls
    only. *)
Theorem analyze_document_summarizer_failure {World}
    (env : capabilities World) (text : str) (st : state World) (e : exn)
    (st1 : state World) :
  text ≠ [] ->
  summarize_text env text default_max_length st = (Raises e, st1) ->
  analyze_document env (Some text) None st = (Raises e, st1)
  ∧ _nli_classifier st1 = _nli_classifier st
  ∧ ∃ new, calls st1 = calls st ++ new
           ∧ Forall (λ c, is_summarizer_call c = true) new.
Proof.
  intros Htext Hsum. split.
  - rewrite analyze_document_stages by (left; by destruct text).
    simpl. by rewrite Hsum.
  - pose proof (summarize_text_step env text default_max_length st) as Hstep.
    rewrite Hsum in Hstep. apply Hstep.
Qed.

Lemma analyze_document_summarizer_failure_witness :
  analyze_document Samples.no_summarizer_env (Some Demo.two_paragraphs) None
    Demo.start
  = (Raises (Failure 2), Demo.start).
Proof.
  exact (proj1 (analyze_document_summarizer_failure Samples.no_summarizer_env
                  Demo.two_paragraphs Demo.start (Failure 2) Demo.start
                  ltac:(done) eq_refl)).
Defined.

(** X22: when the upload is taken as a PDF and the extractor raises, the
    request raises that exception before any model is constructed: both
    globals are as before, the temporary file is gone, and the only call
    made is the extraction. *)
Theorem analyze_document_pdf_failure {World} (env : capabilities World)
    (text : option str) (upload : UploadFile) (st : state World) (e : exn) :
  endswith (py_lower env (default [] (filename upload))) PDF_SUFFIX = true ->
  (run_pdf_extract env (contents upload) (world st)).1 = Raises e ->
  ∃ st',
    analyze_document env text (Some upload) st = (Raises e, st')
    ∧ files st' = files st
    ∧ _summarizer st' = _summarizer st
    ∧ _nli_classifier st' = _nli_classifier st
    ∧ calls st' = calls st ++ [CallPdfExtract (fresh (dom (files st)))].
Proof.
  intros Hpdf Hfail. rewrite analyze_document_stages by (right; done).
  rewrite pdf_upload_run by done. rewrite Hfail. by eexists.
Qed.

Lemma analyze_document_pdf_failure_witness :
  ∃ st',
    analyze_document Demo.env (Some Demo.two_paragraphs)
      (Some {| filename := Some (u "Lease.PDF"); contents := [] |}) Demo.start
    = (Raises (Failure 3), st')
    ∧ files st' = ∅ ∧ _summarizer st' = false ∧ _nli_classifier st' = false.
Proof.
  destruct (analyze_document_pdf_failure Demo.env (Some Demo.two_paragraphs)
              {| filename := Some (u "Lease.PDF"); contents := [] |}
              Demo.start (Failure 3) eq_refl eq_refl)
    as (st' & Hrun & Hf & Hs & Hn & _).
  by exists st'.
Defined.

(** X23: on every outcome of a request the calls made come in three phases:
    at most one PDF extraction, then summarizer calls only, then classifier
    calls only. *)
Theorem analyze_document_phases {World} (env : capabilities World)
    (text : option str) (file : option UploadFile) (st : state World) :
  let st' := (analyze_document env text file st).2 in
  ∃ extraction summarization classification,
    calls st' = calls st ++ extraction ++ summarization ++ classification
    ∧ length extraction <= 1
    ∧ Forall (λ c, is_pdf_call c = true) extraction
    ∧ Forall (λ c, is_summarizer_call c = true) summarization
    ∧ Forall (λ c, is_nli_call c = true) classification.
Proof.
  destruct (request_cases text file) as [[Ht ->]|Hin].
  - rewrite analyze_document_short_circuit by done. simpl.
    exists [], [], [].
    split_and!; [by rewrite app_nil_r|simpl; lia|constructor..].
  - rewrite analyze_document_stages by done.
    assert (∃ doc_outcome st1 extraction,
              match file with
              | Some f => extract_text_from_upload env f st
              | None => (Returns (default [] text), st)
              end = (doc_outcome, st1)
              ∧ calls st1 = calls st ++ extraction
              ∧ length extraction <= 1
              ∧ Forall (λ c, is_pdf_call c = true) extraction)
      as (out & st1 & a & -> & Hc1 & Hlen & Ha).
    { destruct file as [f|].
      - destruct (extract_text_frame env f st) as (_ & _ & _ & [Hc|Hc]).
        + eexists _, _, []. split; [by apply surjective_pairing|].
          rewrite app_nil_r. split_and!; [done|simpl; lia|constructor].
        + eexists _, _, [_]. split; [by apply surjective_pairing|].
          split_and!; [done|simpl; lia|by repeat constructor].
      - eexists _, _, []. split; [done|]. rewrite app_nil_r.
        split_and!; [done|simpl; lia|constructor]. }
    destruct out as [doc|e].
    2:{ simpl. exists a, [], [].
        split_and!; [by rewrite !app_nil_r|done..|constructor|constructor]. }
    destruct (summarize_text_step env doc default_max_length st1)
      as (_ & _ & b & Hc2 & Hb).
    destruct (summarize_text env doc default_max_length st1) as [[s|e] st2].
    2:{ simpl in *. exists a, b, [].
        split_and!; [|done..|constructor].
        by rewrite app_nil_r, Hc2, Hc1, <- app_assoc. }
    simpl in Hc2.
    destruct (flag_risks_step env (extract_clauses doc default_max_clauses) st2)
      as (_ & _ & c & Hc3 & Hc).
    destruct (flag_risks_with_nli env _ st2) as [[r|e] st3]; simpl in *;
      (exists a, b, c;
       split_and!; [|done..]; by rewrite Hc3, Hc2, Hc1, <- !app_assoc).
Qed.

(** X24: a request that succeeds on a non-empty text of fewer than 800
    words, with no file, has made exactly one summarizer call, on the text
    as given with [max_length=200], [min_length=30], and then the four
    classifier calls of each returned clause: 81 calls at most. *)
Theorem analyze_document_short_text_cost {World} (env : capabilities World)
    (text : str) (st : state World) (resp : AnalyzeResponse)
    (st' : state World) :
  text ≠ [] -> length (split text) < 800 ->
  analyze_document env (Some text) None st = (Returns resp, st') ->
  clauses resp = extract_clauses text 20
  ∧ calls st'
    = calls st ++ [CallSummarizer text 200 30 true]
      ++ scan_calls (clauses resp)
  ∧ length (calls st') <= length (calls st) + 81.
Proof.
  intros Htext Hshort Hrun.
  rewrite analyze_document_stages in Hrun by (left; by destruct text).
  simpl in Hrun.
  destruct (summarize_text env text default_max_length st) as [[s|e] st2]
    eqn:Hsum; [|done].
  destruct (flag_risks_with_nli env _ st2) as [[r|e] st3] eqn:Hflag; [|done].
  injection Hrun as <- <-. simpl.
  destruct (flag_risks_result env _ _ _ _ Hflag) as (_ & _ & _ & Hc3).
  assert (Hc2 : calls st2 = calls st ++ [CallSummarizer text 200 30 true]).
  { unfold summarize_text, mbind, M_bind at 1 in Hsum.
    destruct (get_summarizer env st) as [[[]|e] st0] eqn:Hget; [|done].
    apply Nat.ltb_lt in Hshort. rewrite Hshort in Hsum.
    destruct (summarize_once_calls env text default_max_length 30 st0)
      as (r' & st'' & Hrun & Hc).
    rewrite Hrun in Hsum. injection Hsum as -> ->.
    by rewrite Hc, (get_summarizer_calls env _ _ _ Hget). }
  split_and!; [done|by rewrite Hc3, Hc2, <- app_assoc|].
  rewrite Hc3, Hc2, !length_app, scan_calls_length. simpl.
  pose proof (extract_clauses_bounded text default_max_clauses
                ltac:(unfold default_max_clauses; lia)).
  unfold default_max_clauses in *. lia.
Qed.

Lemma analyze_document_short_text_cost_witness :
  ∃ resp st',
    analyze_document Demo.env (Some Demo.two_paragraphs) None Demo.start
    = (Returns resp, st')
    ∧ length (calls st') = 9.
Proof.
  assert (∃ resp st',
            analyze_document Demo.env (Some Demo.two_paragraphs) None Demo.start
            = (Returns resp, st'))
    as (resp & st' & Hrun) by (by eexists _, _; vm_compute).
  destruct (analyze_document_short_text_cost Demo.env Demo.two_paragraphs
              Demo.start resp st' ltac:(done) ltac:(vm_compute; lia) Hrun)
    as (Hcl & Hcalls & _).
  exists resp, st'. split; [done|].
  rewrite Hcalls, Hcl. by vm_compute.
Defined.

(** X25: whatever its outcome, [flag_risks_with_nli] leaves the summarizer
    global alone, and everything it adds to the call log is a classifier
    call. *)
Theorem flag_risks_touches_only_the_classifier {World}
    (env : capabilities World) (clauses : list str) (st : state World) :
  let st' := (flag_risks_with_nli env clauses st).2 in
  _summarizer st' = _summarizer st
  ∧ ∃ new, calls st' = calls st ++ new
           ∧ Forall (λ c, is_nli_call c = true) new.
Proof. apply flag_risks_step. Qed.

Section Whitespace.

Lemma lstrip_whitespace s : Forall (λ c, is_space c = true) s -> lstrip s = [].
Proof. induction 1 as [|c s Hc _ IH]; simpl; [done|]. by rewrite Hc. Qed.

Lemma strip_whitespace s : Forall (λ c, is_space c = true) s -> strip s = [].
Proof. intros Hs. unfold strip. by rewrite lstrip_whitespace. Qed.

Lemma split_whitespace s : Forall (λ c, is_space c = true) s -> split s = [].
Proof.
  unfold split. induction 1 as [|c s Hc _ IH]; simpl; [done|]. by rewrite Hc.
Qed.

Lemma substring_whitespace p s :
  substring p s -> Forall (λ c, is_space c = true) s ->
  Forall (λ c, is_space c = true) p.
Proof.
  intros (a & b & ->) Hs. apply Forall_app in Hs as [_ Hs].
  by apply Forall_app in Hs as [Hs _].
Qed.

Lemma paragraphs_whitespace s :
  Forall (λ c, is_space c = true) s -> paragraphs s = [].
Proof.
  intros Hs. unfold paragraphs.
  assert (Hpieces : Forall (λ p, strip p = [])
                      (re_split match_blank_line s)).
  { apply List.Forall_forall. intros p Hp%list_elem_of_In.
    apply strip_whitespace. eapply substring_whitespace; [|done].
    by apply (re_split_substring match_blank_line). }
  induction Hpieces as [|p ps Hp _ IH]; [done|].
  simpl. rewrite Hp. by rewrite filter_cons_False by (by intros ?).
Qed.

End Whitespace.

(** X26: a text made of whitespace only has no clause and no chunk, for every
    limit and every chunk size, although as a request payload it is not
    empty. *)
Theorem whitespace_text_has_no_content (text : str) :
  Forall (λ c, is_space c = true) text ->
  (∀ max_clauses, extract_clauses text max_clauses = [])
  ∧ split text = []
  ∧ (∀ max_words, 0 < max_words -> chunk_text text max_words = [])
  ∧ (text ≠ [] -> truthy (Some text) = true).
Proof.
  intros Hs. split_and!.
  - intros m. apply extract_clauses_none.
    rewrite paragraphs_normalized, paragraphs_whitespace by done. constructor.
  - by apply split_whitespace.
  - intros n Hn. unfold chunk_text. rewrite split_whitespace by done. simpl.
    unfold py_range. simpl. destruct n as [|[|n]]; [done..|].
    rewrite Nat.div_small by lia. done.
  - by destruct text.
Qed.

Lemma whitespace_text_has_no_content_witness :
  extract_clauses [SP; NL; NL; 9%N] 20 = []
  ∧ chunk_text [SP; NL; NL; 9%N] 700 = [].
Proof.
  destruct (whitespace_text_has_no_content [SP; NL; NL; 9%N]) as (H1 & _ & H2 & _).
  - by repeat constructor.
  - split; [done|]. apply H2. lia.
Defined.
